(** * Parallel deep-research demo: the stream multiplexer and its wire format

    A shallow embedding of

    - [src/types/stream-events.ts]      (the event model),
    - [src/app/api/deep-research/route.ts] (producer generator, request
      validation, the merge loop of [POST] and its SSE framing),
    - the earlier formulation of the same route that re-polls every
      generator on each iteration,
    - [src/components/research-stream.tsx] (the consumer decoder in
      [startAllResearch]),

    followed by the properties of the specification that were checked
    against them.

    Conventions.  Text is represented by its UTF-8 bytes ([string]), so that
    [TextEncoder.encode] and [TextDecoder.decode] are the identity on
    well-formed text.  JavaScript numbers are represented by [Z]: every number
    the route produces ([Date.now()], array indices, sequence numbers) is an
    integer.  Asynchrony is made explicit: a run of the merge loop is driven by
    a schedule saying in which order the outstanding [next()] requests of the
    generators settle. *)

From Stdlib Require Import ZArith Ascii Decimal DecimalPos DecimalZ.
From stdpp Require Import gmap strings list.

Set Warnings "-register-all".

(* ===================================================================== *)
(** * JavaScript values                                                   *)
(* ===================================================================== *)

Module Js.

(** The values that can cross the JSON boundary, plus [undefined]. An object
    is the list of its own properties in insertion order. *)
Inductive value : Type :=
| Undefined
| Null
| Bool (b : bool)
| Number (n : Z)
| Str (s : string)
| Array (items : list value)
| Object (props : list (string * value)).

(** [ToBoolean]; [!q] is [negb (truthy q)]. *)
Definition truthy (v : value) : bool :=
  match v with
  | Undefined | Null => false
  | Bool b => b
  | Number n => negb (n =? 0)%Z
  | Str s => negb (String.eqb s EmptyString)
  | Array _ | Object _ => true
  end.

Fixpoint assoc (k : string) (props : list (string * value)) : option value :=
  match props with
  | [] => None
  | (k', v) :: rest => if String.eqb k k' then Some v else assoc k rest
  end.

(** [k in o] for an object [o]. *)
Definition has (k : string) (v : value) : bool :=
  match v with
  | Object props => match assoc k props with Some _ => true | None => false end
  | _ => false
  end.

(** [v.k] for a plain property name [k] (not an array index, not a built-in
    such as [length]). [None] is the [TypeError] of reading a property of
    [undefined] or [null]. *)
Definition get (v : value) (k : string) : option value :=
  match v with
  | Undefined | Null => None
  | Object props => Some (default Undefined (assoc k props))
  | _ => Some Undefined
  end.

(** [o.k] when [o] is known to be an object. *)
Definition field (k : string) (v : value) : value :=
  default Undefined (get v k).

(** [o[k] = v]: overwrite in place or append. *)
Fixpoint set (k : string) (v : value) (props : list (string * value))
  : list (string * value) :=
  match props with
  | [] => [(k, v)]
  | (k', v') :: rest =>
      if String.eqb k k' then (k', v) :: rest else (k', v') :: set k v rest
  end.

Fixpoint digits (u : uint) : string :=
  match u with
  | Nil => EmptyString
  | D0 r => String "0" (digits r) | D1 r => String "1" (digits r)
  | D2 r => String "2" (digits r) | D3 r => String "3" (digits r)
  | D4 r => String "4" (digits r) | D5 r => String "5" (digits r)
  | D6 r => String "6" (digits r) | D7 r => String "7" (digits r)
  | D8 r => String "8" (digits r) | D9 r => String "9" (digits r)
  end.

(** [Number::toString] on an integer (in plain decimal, as JavaScript writes
    integers below 10^21 in magnitude). *)
Definition number (n : Z) : string :=
  match Z.to_int n with
  | Pos u => digits u
  | Neg u => String "-" (digits u)
  end.

Fixpoint join (sep : string) (l : list string) : string :=
  match l with
  | [] => EmptyString
  | [x] => x
  | x :: rest => x +:+ sep +:+ join sep rest
  end.

(** [ToString], as used by string concatenation. For an array or an object
    this is the conversion by the inherited methods; an object read from JSON
    may carry a [toString] or [valueOf] of its own, and a number outside the
    safe integers is written otherwise: no statement below relies on those
    cases. *)
Fixpoint toString (v : value) : string :=
  match v with
  | Undefined => "undefined"
  | Null => "null"
  | Bool true => "true"
  | Bool false => "false"
  | Number n => number n
  | Str s => s
  | Array items =>
      join ","
        ((fix elements (l : list value) : list string :=
            match l with
            | [] => []
            | (Undefined | Null) :: rest => EmptyString :: elements rest
            | x :: rest => toString x :: elements rest
            end) items)
  | Object _ => "[object Object]"
  end.

(** [a === b] when [a] is a number. *)
Definition is_number (n : Z) (v : value) : bool :=
  match v with Number m => (n =? m)%Z | _ => false end.

(** [a === b] when [a] is a string. *)
Definition is_string (s : string) (v : value) : bool :=
  match v with Str t => String.eqb s t | _ => false end.

End Js.

(* ===================================================================== *)
(** * JSON.stringify and JSON.parse                                       *)
(* ===================================================================== *)

Module Json.
Import Js.

Definition dquote : ascii := "034"%char.
Definition backslash : ascii := "092"%char.
Definition newline : ascii := "010"%char.

Definition code (c : ascii) : N := N_of_ascii c.

Definition hexdigit (n : N) : ascii :=
  if (n <? 10)%N then ascii_of_N (48 + n) else ascii_of_N (87 + n).

(** One character of [QuoteJSONString]. *)
Definition escape (c : ascii) : string :=
  if Ascii.eqb c dquote then String backslash (String dquote EmptyString)
  else if Ascii.eqb c backslash then String backslash (String backslash EmptyString)
  else if Ascii.eqb c "008"%char then String backslash "b"
  else if Ascii.eqb c "012"%char then String backslash "f"
  else if Ascii.eqb c "010"%char then String backslash "n"
  else if Ascii.eqb c "013"%char then String backslash "r"
  else if Ascii.eqb c "009"%char then String backslash "t"
  else if (code c <? 32)%N then
    String backslash
      (String "u" (String "0" (String "0"
         (String (hexdigit (code c / 16)) (String (hexdigit (code c mod 16)) EmptyString)))))
  else String c EmptyString.

Fixpoint escapes (s : string) : string :=
  match s with
  | EmptyString => EmptyString
  | String c r => escape c +:+ escapes r
  end.

Definition quote (s : string) : string :=
  String dquote (escapes s +:+ String dquote EmptyString).

(** [JSON.stringify v], coerced to a string as the template literals of the
    route do. Properties holding [undefined] are left out; [undefined] inside
    an array is written [null]. *)
Fixpoint stringify (v : value) : string :=
  match v with
  | Undefined => "undefined"
  | Null => "null"
  | Bool true => "true"
  | Bool false => "false"
  | Number n => number n
  | Str s => quote s
  | Array items =>
      "[" +:+ join ","
        ((fix elements (l : list value) : list string :=
            match l with
            | [] => []
            | Undefined :: rest => "null" :: elements rest
            | x :: rest => stringify x :: elements rest
            end) items) +:+ "]"
  | Object props =>
      "{" +:+ join ","
        ((fix members (l : list (string * value)) : list string :=
            match l with
            | [] => []
            | (_, Undefined) :: rest => members rest
            | (k, x) :: rest => (quote k +:+ ":" +:+ stringify x) :: members rest
            end) props) +:+ "}"
  end.

(** ** Parsing *)

Definition is_ws (c : ascii) : bool :=
  Ascii.eqb c " " || Ascii.eqb c "009" || Ascii.eqb c "010" || Ascii.eqb c "013".

Fixpoint skip_ws (s : string) : string :=
  match s with
  | String c r => if is_ws c then skip_ws r else s
  | EmptyString => EmptyString
  end.

Definition digit_of (c : ascii) : option (uint -> uint) :=
  match code c with
  | 48 => Some D0 | 49 => Some D1 | 50 => Some D2 | 51 => Some D3 | 52 => Some D4
  | 53 => Some D5 | 54 => Some D6 | 55 => Some D7 | 56 => Some D8 | 57 => Some D9
  | _ => None
  end%N.

(** The longest run of decimal digits at the head of the text. *)
Fixpoint parse_digits (s : string) : uint * string :=
  match s with
  | String c r =>
      match digit_of c with
      | Some d => let (u, rest) := parse_digits r in (d u, rest)
      | None => (Nil, s)
      end
  | EmptyString => (Nil, EmptyString)
  end.

(** After the integer part: a fraction or an exponent would make the number
    a non-integer, which this model does not represent. *)
Definition continues_number (s : string) : bool :=
  match s with
  | String c _ => Ascii.eqb c "." || Ascii.eqb c "e" || Ascii.eqb c "E"
  | EmptyString => false
  end.

Definition parse_unsigned (s : string) : option (uint * string) :=
  match parse_digits s with
  | (Nil, _) => None
  | (D0 (D0 _ | D1 _ | D2 _ | D3 _ | D4 _ | D5 _ | D6 _ | D7 _ | D8 _ | D9 _), _) => None
  | (u, rest) => if continues_number rest then None else Some (u, rest)
  end.

Definition parse_number (s : string) : option (Z * string) :=
  match s with
  | String "-" r =>
      match parse_unsigned r with
      | Some (u, rest) => Some (Z.of_int (Neg u), rest)
      | None => None
      end
  | _ =>
      match parse_unsigned s with
      | Some (u, rest) => Some (Z.of_int (Pos u), rest)
      | None => None
      end
  end.

Definition hexval (c : ascii) : option N :=
  let n := code c in
  if (48 <=? n)%N && (n <=? 57)%N then Some (n - 48)%N
  else if (97 <=? n)%N && (n <=? 102)%N then Some (n - 87)%N
  else if (65 <=? n)%N && (n <=? 70)%N then Some (n - 55)%N
  else None.

(** The UTF-8 bytes of the code unit written [\uXXXX]. Surrogate halves have
    no UTF-8 form of their own and are outside the model. *)
Definition utf8 (n : N) : option string :=
  if (n <? 128)%N then Some (String (ascii_of_N n) EmptyString)
  else if (n <? 2048)%N then
    Some (String (ascii_of_N (192 + n / 64))
           (String (ascii_of_N (128 + n mod 64)) EmptyString))
  else if (55296 <=? n)%N && (n <=? 57343)%N then None
  else
    Some (String (ascii_of_N (224 + n / 4096))
           (String (ascii_of_N (128 + (n / 64) mod 64))
             (String (ascii_of_N (128 + n mod 64)) EmptyString))).

Definition unicode_escape (h1 h2 h3 h4 : ascii) : option string :=
  match hexval h1, hexval h2, hexval h3, hexval h4 with
  | Some a, Some b, Some c, Some d => utf8 (((a * 16 + b) * 16 + c) * 16 + d)
  | _, _, _, _ => None
  end.

Definition simple_escape (e : ascii) : option ascii :=
  if Ascii.eqb e dquote then Some dquote
  else if Ascii.eqb e backslash then Some backslash
  else if Ascii.eqb e "/" then Some "/"%char
  else if Ascii.eqb e "b" then Some "008"%char
  else if Ascii.eqb e "f" then Some "012"%char
  else if Ascii.eqb e "n" then Some "010"%char
  else if Ascii.eqb e "r" then Some "013"%char
  else if Ascii.eqb e "t" then Some "009"%char
  else None.

(** The characters of a string literal, after its opening quote, up to and
    including the closing quote. *)
Fixpoint parse_chars (s : string) : option (string * string) :=
  match s with
  | EmptyString => None
  | String c r =>
      if Ascii.eqb c dquote then Some (EmptyString, r)
      else if Ascii.eqb c backslash then
        match r with
        | String e r1 =>
            if Ascii.eqb e "u" then
              match r1 with
              | String h1 (String h2 (String h3 (String h4 r2))) =>
                  match unicode_escape h1 h2 h3 h4, parse_chars r2 with
                  | Some bytes, Some (str, rest) => Some (bytes +:+ str, rest)
                  | _, _ => None
                  end
              | _ => None
              end
            else
              match simple_escape e, parse_chars r1 with
              | Some x, Some (str, rest) => Some (String x str, rest)
              | _, _ => None
              end
        | EmptyString => None
        end
      else if (code c <? 32)%N then None
      else
        match parse_chars r with
        | Some (str, rest) => Some (String c str, rest)
        | None => None
        end
  end.

Fixpoint expect (lit : string) (s : string) : option string :=
  match lit, s with
  | EmptyString, _ => Some s
  | String a l, String b r => if Ascii.eqb a b then expect l r else None
  | String _ _, EmptyString => None
  end.

(** Recursive descent over the JSON grammar. The fuel bounds the nesting of
    the recursion; the length of the text is always enough. *)
Fixpoint parse_value (fuel : nat) (s : string) : option (value * string) :=
  match fuel with
  | O => None
  | S fuel =>
      match skip_ws s with
      | EmptyString => None
      | String c r =>
          if Ascii.eqb c dquote then
            match parse_chars r with
            | Some (str, rest) => Some (Str str, rest)
            | None => None
            end
          else if Ascii.eqb c "{" then
            match skip_ws r with
            | String "}" rest => Some (Object [], rest)
            | _ => parse_members fuel [] r
            end
          else if Ascii.eqb c "[" then
            match skip_ws r with
            | String "]" rest => Some (Array [], rest)
            | _ => parse_elements fuel [] r
            end
          else if Ascii.eqb c "t" then
            match expect "rue" r with Some rest => Some (Bool true, rest) | None => None end
          else if Ascii.eqb c "f" then
            match expect "alse" r with Some rest => Some (Bool false, rest) | None => None end
          else if Ascii.eqb c "n" then
            match expect "ull" r with Some rest => Some (Null, rest) | None => None end
          else
            match parse_number (String c r) with
            | Some (n, rest) => Some (Number n, rest)
            | None => None
            end
      end
  end

(** The members of an object after its opening brace (at least one); [acc]
    holds the properties read so far. A repeated key overwrites. *)
with parse_members (fuel : nat) (acc : list (string * value)) (s : string)
  : option (value * string) :=
  match fuel with
  | O => None
  | S fuel =>
      match skip_ws s with
      | String c r =>
          if Ascii.eqb c dquote then
            match parse_chars r with
            | Some (k, r1) =>
                match skip_ws r1 with
                | String ":" r2 =>
                    match parse_value fuel r2 with
                    | Some (v, r3) =>
                        match skip_ws r3 with
                        | String "," r4 => parse_members fuel (Js.set k v acc) r4
                        | String "}" r4 => Some (Object (Js.set k v acc), r4)
                        | _ => None
                        end
                    | None => None
                    end
                | _ => None
                end
            | None => None
            end
          else None
      | EmptyString => None
      end
  end

(** The elements of an array after its opening bracket (at least one). *)
with parse_elements (fuel : nat) (acc : list value) (s : string)
  : option (value * string) :=
  match fuel with
  | O => None
  | S fuel =>
      match parse_value fuel s with
      | Some (v, r1) =>
          match skip_ws r1 with
          | String "," r2 => parse_elements fuel (acc ++ [v]) r2
          | String "]" r2 => Some (Array (acc ++ [v]), r2)
          | _ => None
          end
      | None => None
      end
  end.

(** [JSON.parse text]; [None] is the [SyntaxError]. It is also the answer
    for a text with a number that is not an integer or with an escaped
    surrogate half, which the model does not represent: the statements below
    apply [parse] to the frames the route writes and to cuts of them. *)
Definition parse (text : string) : option value :=
  match parse_value (S (String.length text)) text with
  | Some (v, rest) =>
      match skip_ws rest with
      | EmptyString => Some v
      | String _ _ => None
      end
  | None => None
  end.

End Json.

(* ===================================================================== *)
(** * The event model ([stream-events.ts])                                *)
(* ===================================================================== *)

Module Events.
Import Js.

(** The union [StreamEvent]; every interface but [CompleteEvent] extends
    [BaseStreamEvent] and so carries [job] and [timestamp]. *)
Inductive StreamEvent : Type :=
| WebSearchSearchingEvent (job : Z) (item_id : string) (sequence_number : Z) (timestamp : Z)
| WebSearchCompletedEvent (job : Z) (item_id : string) (timestamp : Z)
| ContentEvent (job : Z) (content : string) (timestamp : Z)
| TextDoneEvent (job : Z) (item_id : string) (timestamp : Z)
| JobDoneEvent (job : Z) (timestamp : Z)
| ErrorEvent (job : Z) (error : string) (timestamp : Z)
| CompleteEvent (timestamp : Z).

(** The object literal the route builds for each variant, with its
    properties in the order in which the literal lists them. *)
Definition object_of (e : StreamEvent) : value :=
  match e with
  | WebSearchSearchingEvent job item_id sequence_number timestamp =>
      Object [("type", Str "web_search_searching"); ("job", Number job);
              ("item_id", Str item_id); ("sequence_number", Number sequence_number);
              ("timestamp", Number timestamp)]
  | WebSearchCompletedEvent job item_id timestamp =>
      Object [("type", Str "web_search_completed"); ("job", Number job);
              ("item_id", Str item_id); ("timestamp", Number timestamp)]
  | ContentEvent job content timestamp =>
      Object [("type", Str "content"); ("job", Number job);
              ("content", Str content); ("timestamp", Number timestamp)]
  | TextDoneEvent job item_id timestamp =>
      Object [("type", Str "text_done"); ("job", Number job);
              ("item_id", Str item_id); ("timestamp", Number timestamp)]
  | JobDoneEvent job timestamp =>
      Object [("type", Str "done"); ("job", Number job); ("timestamp", Number timestamp)]
  | ErrorEvent job error timestamp =>
      Object [("type", Str "error"); ("job", Number job);
              ("error", Str error); ("timestamp", Number timestamp)]
  | CompleteEvent timestamp =>
      Object [("type", Str "complete"); ("timestamp", Number timestamp)]
  end.

(** [hasJobField]: ['job' in event]. *)
Definition hasJobField (event : value) : bool := has "job" event.

End Events.

(* ===================================================================== *)
(** * The producer: [runSingleDeepResearch]                               *)
(* ===================================================================== *)

Module Producer.
Import Events.

(** One event of the stream returned by [openai.responses.create], reduced
    to the properties the generator reads. *)
Record ResponseStreamEvent : Type := {
  type : string;
  delta : string;
  item_id : string;
  sequence_number : Z
}.

(** A stream event together with the reading of [Date.now()] at the moment
    the generator handles it. *)
Record Tick : Type := { event : ResponseStreamEvent; now : Z }.

(** A thrown value: [error instanceof Error] with its [message], or
    anything else. *)
Inductive Thrown : Type :=
| Error (message : string)
| NotAnError.

Inductive Ending : Type :=
| Returns
| Throws (reason : Thrown).

(** What the external service does for one job: the request itself fails,
    or it streams events and then the stream ends or throws. *)
Inductive Response : Type :=
| CreateRejects (reason : Thrown)
| Streams (ticks : list Tick) (ending : Ending).

(** One turn of the [for await] body: six independent [if]s on
    [event.type], each yielding one event when it matches. *)
Definition body (jobId : nat) (t : Tick) : list StreamEvent :=
  let e := event t in
  let job := Z.of_nat jobId in
  (if String.eqb (type e) "response.output_text.delta"
   then [ContentEvent job (delta e) (now t)] else [])
  ++ (if String.eqb (type e) "response.output_text.done"
      then [TextDoneEvent job (item_id e) (now t)] else [])
  ++ (if String.eqb (type e) "response.web_search_call.searching"
      then [WebSearchSearchingEvent job (item_id e) (sequence_number e) (now t)] else [])
  ++ (if String.eqb (type e) "response.web_search_call.completed"
      then [WebSearchCompletedEvent job (item_id e) (now t)] else [])
  ++ (if String.eqb (type e) "response.completed"
      then [JobDoneEvent job (now t)] else [])
  ++ (if String.eqb (type e) "response.failed"
      then [ErrorEvent job "Response failed" (now t)] else []).

Inductive IteratorResult : Type :=
| Yielded (value : StreamEvent)     (* { value, done: false } *)
| Finished.                         (* { value: undefined, done: true } *)

Inductive Settlement : Type :=
| Fulfilled (result : IteratorResult)
| Rejected (reason : Thrown).

(** An async generator object. [script] is what it has still to yield and
    [ending] how it will complete. Requests made with [next()] are queued
    and served oldest first: [issued] counts the calls of [next()] so far,
    [served] the requests already settled; a request is identified by its
    ticket, the value of [issued] when it was made. *)
Record AsyncGen : Type := {
  script : list StreamEvent;
  ending : Ending;
  issued : nat;
  served : nat
}.

Definition outstanding (g : AsyncGen) : nat := issued g - served g.

Definition runSingleDeepResearch (openai : Response) (jobId : nat) : AsyncGen :=
  match openai with
  | CreateRejects reason =>
      {| script := []; ending := Throws reason; issued := 0; served := 0 |}
  | Streams ticks ending =>
      {| script := flat_map (body jobId) ticks; ending := ending;
         issued := 0; served := 0 |}
  end.

(** [gen.next()]: enqueue a request; the ticket names the promise returned. *)
Definition next (g : AsyncGen) : nat * AsyncGen :=
  (issued g,
   {| script := script g; ending := ending g; issued := S (issued g); served := served g |}).

(** The oldest outstanding request settles. A generator that has thrown or
    returned is completed: later requests are fulfilled with [done: true]. *)
Definition settle (g : AsyncGen) : option (nat * Settlement * AsyncGen) :=
  if served g <? issued g then
    Some
      match script g, ending g with
      | e :: rest, _ =>
          (served g, Fulfilled (Yielded e),
           {| script := rest; ending := ending g; issued := issued g; served := S (served g) |})
      | [], Returns =>
          (served g, Fulfilled Finished,
           {| script := []; ending := Returns; issued := issued g; served := S (served g) |})
      | [], Throws reason =>
          (served g, Rejected reason,
           {| script := []; ending := Returns; issued := issued g; served := S (served g) |})
      end
  else None.

Definition has_outstanding (gens : list AsyncGen) (g : nat) : bool :=
  match gens !! g with
  | Some gen => served gen <? issued gen
  | None => false
  end.

(** The schedule of arrivals: the generator whose oldest outstanding request
    settles next. Entries naming a generator with nothing outstanding cannot
    happen and are passed over; once the schedule is exhausted the
    outstanding requests settle lowest job first. *)
Fixpoint nextArrival (arrivals : list nat) (gens : list AsyncGen)
  : option (nat * list nat) :=
  match arrivals with
  | g :: rest =>
      if has_outstanding gens g then Some (g, rest) else nextArrival rest gens
  | [] =>
      match List.find (has_outstanding gens) (seq 0 (length gens)) with
      | Some g => Some (g, [])
      | None => None
      end
  end.

End Producer.

(* ===================================================================== *)
(** * The route ([route.ts])                                              *)
(* ===================================================================== *)

Module Route.
Import Js Json Events Producer.

(** [ReadableStreamDefaultController]: the chunks enqueued so far. *)
Record Controller : Type := { enqueued : list string; closed : bool }.

Definition enqueue (chunk : string) (c : Controller) : Controller :=
  {| enqueued := enqueued c ++ [chunk]; closed := closed c |}.

Definition close (c : Controller) : Controller :=
  {| enqueued := enqueued c; closed := true |}.

(** [`data: ${data}\n\n`] *)
Definition sse (data : string) : string :=
  "data: " +:+ data +:+ String newline (String newline EmptyString).

Definition frame (e : StreamEvent) : string := sse (stringify (object_of e)).

(** The promise [gen.next().then(result => ({ gen, result }))]: it remembers
    its generator and stands for the request with that ticket. *)
Record Promise : Type := { gen : nat; ticket : nat }.

#[global] Instance Promise_eq_dec : EqDecision Promise.
Proof. solve_decision. Defined.

Inductive Status : Type :=
| Looping                      (* at the head of the [while] loop *)
| Completed                    (* the stream was closed after ['complete'] *)
| Caught (reason : Thrown)     (* the [catch] block closed the stream *)
| Hung.                        (* awaiting a race that nothing can settle *)

(** The state of [start(controller)]. Generators are named by their index
    in [generators], which is also their job number. [arrivals] and
    [completedAt] belong to the environment: the order in which requests
    settle, and [Date.now()] when the loop is left. *)
Record Run : Type := {
  generators : list AsyncGen;
  pendingPromises : gmap nat Promise;
  controller : Controller;
  status : Status;
  arrivals : list nat;
  completedAt : Z
}.

Definition with_generators (gs : list AsyncGen) (r : Run) : Run :=
  {| generators := gs; pendingPromises := pendingPromises r;
     controller := controller r; status := status r;
     arrivals := arrivals r; completedAt := completedAt r |}.

Definition with_pending (m : gmap nat Promise) (r : Run) : Run :=
  {| generators := generators r; pendingPromises := m;
     controller := controller r; status := status r;
     arrivals := arrivals r; completedAt := completedAt r |}.

Definition with_controller (c : Controller) (r : Run) : Run :=
  {| generators := generators r; pendingPromises := pendingPromises r;
     controller := c; status := status r;
     arrivals := arrivals r; completedAt := completedAt r |}.

Definition with_status (s : Status) (r : Run) : Run :=
  {| generators := generators r; pendingPromises := pendingPromises r;
     controller := controller r; status := s;
     arrivals := arrivals r; completedAt := completedAt r |}.

Definition with_arrivals (l : list nat) (r : Run) : Run :=
  {| generators := generators r; pendingPromises := pendingPromises r;
     controller := controller r; status := status r;
     arrivals := l; completedAt := completedAt r |}.

(** [pendingPromises.set(gen, gen.next().then(...))] *)
Definition poll (g : nat) (r : Run) : Run :=
  match generators r !! g with
  | Some a =>
      let '(t, a') := next a in
      with_pending (<[g := {| gen := g; ticket := t |}]> (pendingPromises r))
        (with_generators (<[g := a']> (generators r)) r)
  | None => r
  end.

Definition errorData (reason : Thrown) : string :=
  stringify
    (Object [("type", Str "error");
             ("error", Str match reason with
                           | Error message => message
                           | NotAnError => "Unknown error"
                           end)]).

(** After the loop: the final event, then [controller.close()]. *)
Definition finish (r : Run) : Run :=
  with_status Completed
    (with_controller
       (close (enqueue (frame (CompleteEvent (completedAt r))) (controller r))) r).

(** The [catch] block. *)
Definition catch (reason : Thrown) (r : Run) : Run :=
  with_status (Caught reason)
    (with_controller (close (enqueue (sse (errorData reason)) (controller r))) r).

(** The body of the loop once the race is won by [{ gen, result }]. *)
Definition handle (g : nat) (result : IteratorResult) (r : Run) : Run :=
  match result with
  | Finished => with_pending (delete g (pendingPromises r)) r
  | Yielded value =>
      poll g (with_controller (enqueue (frame value) (controller r)) r)
  end.

(** One turn of the [while] loop, from its head back to its head (or out of
    the loop): leave when the map is empty; otherwise await the race and
    handle the promise that wins it. The race is over the promises held in
    the map: a request that settles without being one of them is heard by
    nobody. *)
Definition step (r : Run) : Run :=
  match status r with
  | Looping =>
      if size (pendingPromises r) =? 0 then finish r
      else
        match nextArrival (arrivals r) (generators r) with
        | None => with_status Hung r
        | Some (g, rest) =>
            match generators r !! g ≫= settle with
            | None => with_arrivals rest r
            | Some (t, outcome, a') =>
                let r1 :=
                  with_generators (<[g := a']> (generators r)) (with_arrivals rest r) in
                if bool_decide (pendingPromises r !! g = Some {| gen := g; ticket := t |})
                then
                  match outcome with
                  | Fulfilled result => handle g result r1
                  | Rejected reason => catch reason r1
                  end
                else r1
            end
        end
  | _ => r
  end.

(** [for (const gen of generators) pendingPromises.set(gen, gen.next()...)] *)
Definition start (gens : list AsyncGen) (arrivals : list nat) (completedAt : Z) : Run :=
  foldl (fun r g => poll g r)
    {| generators := gens; pendingPromises := ∅;
       controller := {| enqueued := []; closed := false |};
       status := Looping; arrivals := arrivals; completedAt := completedAt |}
    (seq 0 (length gens)).

Definition steps (n : nat) (r : Run) : Run := Nat.iter n step r.

(** Turns of the loop that always suffice: one per event to forward, one per
    generator to retire, one to leave the loop. *)
Definition budget (gens : list AsyncGen) : nat :=
  S (length gens + sum_list (map (fun a => length (script a)) gens)).

(** The body of [start(controller)], run to its end. *)
Definition mergeStreams (gens : list AsyncGen) (arrivals : list nat) (completedAt : Z) : Run :=
  steps (budget gens) (start gens arrivals completedAt).

(** The environment of one request. *)
Record World : Type := {
  create : nat -> value -> Response;   (* [openai.responses.create] for job and query *)
  schedule : list nat;
  clock : Z
}.

Inductive HttpResponse : Type :=
| JsonResponse (status : nat) (payload : value)
| EventStream (run : Run).

(** The message of the [TypeError] raised by reading a property of [null]
    (V8's wording). *)
Definition typeErrorMessage : string :=
  "Cannot read properties of null (reading 'queries')".

(** [Array.isArray(body.queries) ? body.queries : [body.query]]; [None] when
    reading [body.queries] throws. *)
Definition queriesOf (body : value) : option (list value) :=
  match get body "queries" with
  | None => None
  | Some (Array items) => Some items
  | Some _ => Some [field "query" body]
  end.

(** [!queries.length || queries.some(q => !q)] *)
Definition invalid (queries : list value) : bool :=
  (length queries =? 0) || existsb (fun q => negb (truthy q)) queries.

(** [queries.map((query, index) => runSingleDeepResearch(query, index))] *)
Definition generatorsFor (w : World) (queries : list value) : list AsyncGen :=
  imap (fun index query => runSingleDeepResearch (create w index query) index) queries.

(** [POST], for a request whose body parsed to [body]. *)
Definition POST (w : World) (body : value) : HttpResponse :=
  match queriesOf body with
  | None => JsonResponse 500 (Object [("error", Str typeErrorMessage)])
  | Some queries =>
      if invalid queries then
        JsonResponse 400 (Object [("error", Str "Query or queries required")])
      else
        EventStream (mergeStreams (generatorsFor w queries) (schedule w) (clock w))
  end.

End Route.

(* ===================================================================== *)
(** * The earlier formulation of the merge loop                           *)
(* ===================================================================== *)

Module Naive.
Import Js Json Events Producer.
Import Route (Controller, enqueued, closed, enqueue, close, sse, frame,
              Promise, gen, ticket, errorData).

Inductive Status : Type :=
| Polling                      (* at the head of the [while] loop *)
| Racing                       (* awaiting [Promise.race(promises)] *)
| Completed
| Caught (reason : Thrown)
| Hung.

(** [promises] is the array built by the current turn of the loop. *)
Record Run : Type := {
  generators : list AsyncGen;
  activeGenerators : gset nat;
  promises : list Promise;
  controller : Controller;
  status : Status;
  arrivals : list nat
}.

Definition with_generators (gs : list AsyncGen) (r : Run) : Run :=
  {| generators := gs; activeGenerators := activeGenerators r;
     promises := promises r; controller := controller r;
     status := status r; arrivals := arrivals r |}.

Definition with_active (s : gset nat) (r : Run) : Run :=
  {| generators := generators r; activeGenerators := s;
     promises := promises r; controller := controller r;
     status := status r; arrivals := arrivals r |}.

Definition with_promises (ps : list Promise) (r : Run) : Run :=
  {| generators := generators r; activeGenerators := activeGenerators r;
     promises := ps; controller := controller r;
     status := status r; arrivals := arrivals r |}.

Definition with_controller (c : Controller) (r : Run) : Run :=
  {| generators := generators r; activeGenerators := activeGenerators r;
     promises := promises r; controller := c;
     status := status r; arrivals := arrivals r |}.

Definition with_status (s : Status) (r : Run) : Run :=
  {| generators := generators r; activeGenerators := activeGenerators r;
     promises := promises r; controller := controller r;
     status := s; arrivals := arrivals r |}.

Definition with_arrivals (l : list nat) (r : Run) : Run :=
  {| generators := generators r; activeGenerators := activeGenerators r;
     promises := promises r; controller := controller r;
     status := status r; arrivals := l |}.

(** [async (gen) => ({ gen, result: await gen.next() })] applied to one
    active generator. *)
Definition poll (r : Run) (g : nat) : Run :=
  match generators r !! g with
  | Some a =>
      let '(t, a') := next a in
      with_promises (promises r ++ [{| gen := g; ticket := t |}])
        (with_generators (<[g := a']> (generators r)) r)
  | None => r
  end.

Definition finish (r : Run) : Run :=
  with_status Completed
    (with_controller
       (close (enqueue (sse (stringify (Object [("type", Str "complete")])))
                 (controller r))) r).

Definition catch (reason : Thrown) (r : Run) : Run :=
  with_status (Caught reason)
    (with_controller (close (enqueue (sse (errorData reason)) (controller r))) r).

Definition handle (g : nat) (result : IteratorResult) (r : Run) : Run :=
  match result with
  | Finished => with_active (activeGenerators r ∖ {[g]}) r
  | Yielded value => with_controller (enqueue (frame value) (controller r)) r
  end.

(** The loop in two kinds of turn: at its head every active generator is
    polled afresh and the new promises are raced; while racing, a request
    that settles wins the race only if it is one of the promises of this
    turn, and otherwise its result is discarded. *)
Definition step (r : Run) : Run :=
  match status r with
  | Polling =>
      if size (activeGenerators r) =? 0 then finish r
      else
        foldl poll (with_status Racing (with_promises [] r))
          (elements (activeGenerators r))
  | Racing =>
      match nextArrival (arrivals r) (generators r) with
      | None => with_status Hung r
      | Some (g, rest) =>
          match generators r !! g ≫= settle with
          | None => with_arrivals rest r
          | Some (t, outcome, a') =>
              let r1 :=
                with_generators (<[g := a']> (generators r)) (with_arrivals rest r) in
              if bool_decide ({| gen := g; ticket := t |} ∈ promises r) then
                match outcome with
                | Fulfilled result => handle g result (with_status Polling r1)
                | Rejected reason => catch reason r1
                end
              else r1
          end
      end
  | _ => r
  end.

(** [new Set<Generator>(generators)] *)
Definition start (gens : list AsyncGen) (arrivals : list nat) : Run :=
  {| generators := gens;
     activeGenerators := list_to_set (seq 0 (length gens));
     promises := [];
     controller := {| enqueued := []; closed := false |};
     status := Polling; arrivals := arrivals |}.

Definition steps (n : nat) (r : Run) : Run := Nat.iter n step r.

End Naive.

(* ===================================================================== *)
(** * The consumer decoder ([research-stream.tsx])                        *)
(* ===================================================================== *)

Module Client.
Import Js Json Events.

Inductive JobStatus : Type := idle | searching | streaming | done | error.

Record ResearchJob : Type := {
  id : nat;
  query : string;
  content : string;
  status : JobStatus;
  searchCount : nat
}.

Definition DEMO_QUERIES : list string :=
  ["What did David Deutsch say about us being immortal by now?";
   "Why did humans evolve to die? Concise answer"].

(** The initial value of the [jobs] state. *)
Definition initialJobs : list ResearchJob :=
  imap (fun id query =>
          {| id := id; query := query; content := EmptyString;
             status := idle; searchCount := 0 |}) DEMO_QUERIES.

(** What the component holds and has logged: the [jobs] state and the events
    written by [console.log('Received event:', event)]. *)
Record State : Type := { jobs : list ResearchJob; received : list value }.

(** [chunk.split('\n')] *)
Fixpoint split (s : string) : list string :=
  match s with
  | EmptyString => [EmptyString]
  | String c r =>
      if Ascii.eqb c newline then EmptyString :: split r
      else
        match split r with
        | line :: lines => String c line :: lines
        | [] => [String c EmptyString]
        end
  end.

(** [line.slice(n)] *)
Fixpoint slice (n : nat) (s : string) : string :=
  match n, s with
  | S n, String _ r => slice n r
  | _, _ => s
  end.

(** The callback of [prev.map] inside [setJobs]. *)
Definition update (event : value) (job : ResearchJob) : ResearchJob :=
  if negb (is_number (Z.of_nat (id job)) (field "job" event)) then job
  else
    let type := field "type" event in
    if is_string "web_search_searching" type then
      {| id := id job; query := query job; content := content job;
         status := searching; searchCount := searchCount job + 1 |}
    else if is_string "web_search_completed" type then job
    else if is_string "content" type then
      {| id := id job; query := query job;
         content :=
           content job +:+
             (if truthy (field "content" event)
              then toString (field "content" event) else EmptyString);
         status := streaming; searchCount := searchCount job |}
    else if is_string "text_done" type then job
    else if is_string "done" type then
      {| id := id job; query := query job; content := content job;
         status := done; searchCount := searchCount job |}
    else if is_string "error" type then
      {| id := id job; query := query job; content := content job;
         status := error; searchCount := searchCount job |}
    else job.

(** The body of the [try] block once [JSON.parse] has returned [event]. *)
Definition dispatch (st : State) (event : value) : State :=
  let st1 := {| jobs := jobs st; received := received st ++ [event] |} in
  if is_string "complete" (field "type" event) then st1
  else if negb (hasJobField event) then st1
  else {| jobs := map (update event) (jobs st1); received := received st1 |}.

(** The body of [for (const line of lines)]. *)
Definition processLine (st : State) (line : string) : State :=
  if String.prefix "data: " line then
    let data := slice 6 line in
    if String.eqb data "[DONE]" then st
    else
      match parse data with
      | None => st                                  (* caught and logged *)
      | Some event => dispatch st event
      end
  else st.

(** One turn of the reader loop on the chunk [reader.read()] delivered. *)
Definition processChunk (st : State) (chunk : string) : State :=
  foldl processLine st (split chunk).

(** [startAllResearch] given the chunks the response body delivers. *)
Definition startAllResearch (js : list ResearchJob) (chunks : list string) : State :=
  foldl processChunk
    {| jobs := map (fun job =>
                      {| id := id job; query := query job; content := EmptyString;
                         status := searching; searchCount := 0 |}) js;
       received := [] |}
    chunks.

End Client.

(* ===================================================================== *)
(** * Vocabulary of the statements                                        *)
(* ===================================================================== *)

Import Js Json Events Producer Route.

(** A generator object on which [next()] has not been called yet. *)
Definition Fresh (a : AsyncGen) : Prop := issued a = 0 ∧ served a = 0.

(** A merged sequence records, for each forwarded event, the generator it
    came from; [project g] is what generator [g] contributed, in order. *)
Definition project (g : nat) (trace : list (nat * StreamEvent)) : list StreamEvent :=
  map snd (filter (λ x, x.1 = g) trace).

(** The frame that ends the output, according to how the run ended. *)
Definition closing (s : Status) (completedAt : Z) : list string :=
  match s with
  | Looping | Hung => []
  | Completed => [frame (CompleteEvent completedAt)]
  | Caught reason => [sse (errorData reason)]
  end.

Definition left_loop (s : Status) : bool :=
  match s with Looping => false | _ => true end.

(** The bookkeeping of one generator [a] (initially [a0]) against the map. *)
Inductive Slot (m : gmap nat Promise) (s : Status) (g : nat) (a0 a : AsyncGen) : Prop :=
| Awaited :
    m !! g = Some {| gen := g; ticket := served a |} →
    issued a = S (served a) →
    ending a = ending a0 →
    Slot m s g a0 a
| Retired :
    m !! g = None →
    issued a = served a →
    script a = [] →
    ending a0 = Returns →
    Slot m s g a0 a
| Failed reason :
    s = Caught reason →
    is_Some (m !! g) →
    issued a = served a →
    script a = [] →
    ending a0 = Throws reason →
    Slot m s g a0 a.

(** What is known of generator [g] when the events of [trace] have been
    forwarded: its remaining script, the number of [next()] calls it has
    received (one to begin with and one after each forwarded event), and its
    place in the map. *)
Record Tracked (m : gmap nat Promise) (s : Status) (trace : list (nat * StreamEvent))
    (g : nat) (a0 a : AsyncGen) : Prop := {
  tr_script : script a0 = project g trace ++ script a;
  tr_calls : issued a = S (length (project g trace));
  tr_slot : Slot m s g a0 a
}.

Record Inv (gens0 : list AsyncGen) (r : Run) : Prop := {
  inv_length : length (generators r) = length gens0;
  inv_hung : status r ≠ Hung;
  inv_dom : ∀ g, is_Some (pendingPromises r !! g) → g < length gens0;
  inv_trace :
    ∃ trace,
      enqueued (controller r)
        = map (λ x, frame x.2) trace ++ closing (status r) (completedAt r)
      ∧ Forall (λ x, x.1 < length gens0) trace
      ∧ ∀ g a0 a, gens0 !! g = Some a0 → generators r !! g = Some a →
          Tracked (pendingPromises r) (status r) trace g a0 a;
  inv_closed : closed (controller r) = left_loop (status r);
  inv_completed : status r = Completed → pendingPromises r = ∅;
  inv_caught : ∀ reason, status r = Caught reason →
    ∃ g a0, gens0 !! g = Some a0 ∧ ending a0 = Throws reason
}.

(** One turn of the loop, as the invariant allows it to happen. *)
Inductive Turn (r : Run) : Run → Prop :=
| turn_leave :
    pendingPromises r = ∅ →
    Turn r (finish r)
| turn_forward g rest a e rest0 :
    nextArrival (arrivals r) (generators r) = Some (g, rest) →
    generators r !! g = Some a →
    pendingPromises r !! g = Some {| gen := g; ticket := served a |} →
    issued a = S (served a) →
    script a = e :: rest0 →
    Turn r
      (poll g
         (with_controller (enqueue (frame e) (controller r))
            (with_generators
               (<[g := {| script := rest0; ending := ending a;
                          issued := issued a; served := S (served a) |}]> (generators r))
               (with_arrivals rest r))))
| turn_retire g rest a :
    nextArrival (arrivals r) (generators r) = Some (g, rest) →
    generators r !! g = Some a →
    pendingPromises r !! g = Some {| gen := g; ticket := served a |} →
    issued a = S (served a) →
    script a = [] →
    ending a = Returns →
    Turn r
      (with_pending (delete g (pendingPromises r))
         (with_generators
            (<[g := {| script := []; ending := Returns;
                       issued := issued a; served := S (served a) |}]> (generators r))
            (with_arrivals rest r)))
| turn_catch g rest a reason :
    nextArrival (arrivals r) (generators r) = Some (g, rest) →
    generators r !! g = Some a →
    pendingPromises r !! g = Some {| gen := g; ticket := served a |} →
    issued a = S (served a) →
    script a = [] →
    ending a = Throws reason →
    Turn r
      (catch reason
         (with_generators
            (<[g := {| script := []; ending := Returns;
                       issued := issued a; served := S (served a) |}]> (generators r))
            (with_arrivals rest r))).

(** What is left to do: turns of the loop before it is left. *)
Definition remaining (r : Run) : nat :=
  match status r with
  | Looping =>
      S (size (pendingPromises r)
         + sum_list (map (λ a, length (script a)) (generators r)))
  | _ => 0
  end.

(** No generator ever throws: neither the request to the service nor its
    stream fails. *)
Definition NeverThrows (gens : list AsyncGen) : Prop :=
  Forall (λ a, ending a = Returns) gens.

(** [trace] interleaves the scripts of [gens]: what each generator
    contributed is exactly its script, and nothing comes from elsewhere. *)
Definition Merged (gens : list AsyncGen) (trace : list (nat * StreamEvent)) : Prop :=
  ∀ g, project g trace = from_option script [] (gens !! g).

(** The output of a run is the merged events, framed, then the closing frame. *)
Definition ForwardsAll (gens : list AsyncGen) (r : Run) : Prop :=
  ∃ trace,
    enqueued (controller r)
      = map (λ x, frame x.2) trace ++ closing (status r) (completedAt r)
    ∧ Merged gens trace.

Definition isComplete (e : StreamEvent) : bool :=
  match e with CompleteEvent _ => true | _ => false end.

(** ['complete'] is the last chunk, no other chunk is a ['complete'] frame,
    and by then every generator has reported done. *)
Definition CompleteOnceAtEnd (r : Run) : Prop :=
  ∃ frames,
    enqueued (controller r) = frames ++ [frame (CompleteEvent (completedAt r))]
    ∧ Forall (λ f, ∀ t, f ≠ frame (CompleteEvent t)) frames
    ∧ pendingPromises r = ∅
    ∧ Forall (λ a, script a = [] ∧ outstanding a = 0) (generators r).


(** The object a chunk carries, read the way the consumer reads it: first
    line, marker stripped, [JSON.parse]. *)
Definition carried (chunk : string) : option value :=
  match Client.split chunk with
  | line :: _ =>
      if String.prefix "data: " line then parse (Client.slice 6 line) else None
  | [] => None
  end.

(** A frame of the event model: tagged, timestamped, and without [job] only
    when the tag is ['complete']. *)
Definition eventShaped (obj : value) : Prop :=
  ∃ tag, field "type" obj = Str tag
    ∧ has "timestamp" obj = true
    ∧ (has "job" obj = false ↔ tag = "complete").

(** The object of the frame written by the [catch] block. *)
Definition errorObject (reason : Thrown) : value :=
  Object [("type", Str "error");
          ("error", Str match reason with
                        | Error message => message
                        | NotAnError => "Unknown error"
                        end)].

(** A transport chunk holding whole frames. *)
Definition chunk_of (events : list StreamEvent) : string :=
  foldr (λ e text, frame e +:+ text) EmptyString events.

(** An entry the specification calls empty or missing. *)
Definition emptyOrMissing (q : value) : bool :=
  match q with
  | Undefined | Null => true
  | Str s => String.eqb s EmptyString
  | _ => false
  end.

(** ** The wire format *)

(** What may follow a number inside an object: a comma, the closing brace, or
    the end of the text. *)
Definition stops_number (text : string) : Prop :=
  match text with
  | String c _ => c = ","%char ∨ c = "}"%char
  | EmptyString => True
  end.

(** The values of the properties of an event: numbers and strings. *)
Definition scalar (v : value) : Prop :=
  match v with Number _ | Str _ => True | _ => False end.

(** An object whose properties are strings and numbers under distinct keys. *)
Definition flat (props : list (string * value)) : Prop :=
  Forall (λ kv, scalar kv.2) props ∧ NoDup (map fst props).

Definition member (kv : string * value) : string :=
  quote kv.1 +:+ ":" +:+ stringify kv.2.

(** A text without a line feed. *)
Fixpoint one_line (s : string) : bool :=
  match s with
  | EmptyString => true
  | String c r => negb (Ascii.eqb c newline) && one_line r
  end.

(** The line of a frame: the marker followed by the serialised object. *)
Definition line_of (obj : value) : string := "data: " +:+ stringify obj.

(** The values for which [!q] holds. *)
Definition falsy (q : value) : Prop :=
  q = Undefined ∨ q = Null ∨ q = Str EmptyString ∨ q = Bool false ∨ q = Number 0.

(** ** Concrete requests used as instances *)

Definition textDelta (text : string) (at_ : Z) : Tick :=
  {| event := {| type := "response.output_text.delta"; delta := text;
                 item_id := EmptyString; sequence_number := 0 |};
     now := at_ |}.


Definition twoQueries : value :=
  Object [("queries", Array [Str "first question"; Str "second question"])].

(** Job 0 streams one text delta, job 1 two; the first event of job 1
    arrives before that of job 0. *)
Definition calm : World :=
  {| create := λ job _,
       if job =? 0 then Streams [textDelta "a1" 1] Returns
       else Streams [textDelta "b1" 2; textDelta "b2" 3] Returns;
     schedule := [1; 0; 1];
     clock := 9 |}.

(** The request of job 0 to the service throws; job 1 streams one delta. *)
Definition broken : World :=
  {| create := λ job _,
       if job =? 0 then CreateRejects (Error "boom")
       else Streams [textDelta "b1" 2] Returns;
     schedule := [0];
     clock := 9 |}.


Definition queriesOf_twoQueries : list value :=
  [Str "first question"; Str "second question"].



(** ** Further vocabulary *)

(** The [job] an event carries, if any, and its [timestamp]. *)
Definition jobOf (e : StreamEvent) : option Z :=
  match e with
  | WebSearchSearchingEvent job _ _ _ | WebSearchCompletedEvent job _ _
  | ContentEvent job _ _ | TextDoneEvent job _ _
  | JobDoneEvent job _ | ErrorEvent job _ _ => Some job
  | CompleteEvent _ => None
  end.

Definition timestampOf (e : StreamEvent) : Z :=
  match e with
  | WebSearchSearchingEvent _ _ _ t | WebSearchCompletedEvent _ _ t
  | ContentEvent _ _ t | TextDoneEvent _ _ t
  | JobDoneEvent _ t | ErrorEvent _ _ t | CompleteEvent t => t
  end.

(** The event types the body of [runSingleDeepResearch] tests for. *)
Definition handledTypes : list string :=
  ["response.output_text.delta"; "response.output_text.done";
   "response.web_search_call.searching"; "response.web_search_call.completed";
   "response.completed"; "response.failed"].

(** What a card of the page ends up holding once the events [events] have
    been dispatched, starting from [job]. *)
Definition shown (events : list StreamEvent) (job : Client.ResearchJob)
  : Client.ResearchJob :=
  foldl (λ jb e, Client.update (object_of e) jb) job events.

(** The text deltas and the number of searches among the events of job [k]. *)
Fixpoint deltasOf (k : nat) (events : list StreamEvent) : string :=
  match events with
  | [] => EmptyString
  | ContentEvent job text _ :: rest =>
      if (job =? Z.of_nat k)%Z then text +:+ deltasOf k rest else deltasOf k rest
  | _ :: rest => deltasOf k rest
  end.

Fixpoint searchesOf (k : nat) (events : list StreamEvent) : nat :=
  match events with
  | [] => 0
  | WebSearchSearchingEvent job _ _ _ :: rest =>
      if (job =? Z.of_nat k)%Z then S (searchesOf k rest) else searchesOf k rest
  | _ :: rest => searchesOf k rest
  end.

(** The final frame of the earlier formulation: [{ type: 'complete' }]. *)
Definition naiveComplete : string :=
  sse (stringify (Object [("type", Str "complete")])).

(** Several enqueued chunks delivered to the reader as one. *)
Definition joined (chunks : list string) : string :=
  foldr String.append EmptyString chunks.

(** The stream events of a response of the service. *)
Definition ticksOf (openai : Response) : list Tick :=
  match openai with
  | Streams ticks _ => ticks
  | CreateRejects _ => []
  end.

(** The text a stream delivers, and the number of searches it announces. *)
Fixpoint textOf (ticks : list Tick) : string :=
  match ticks with
  | [] => EmptyString
  | t :: rest =>
      if String.eqb (type (event t)) "response.output_text.delta"
      then delta (event t) +:+ textOf rest else textOf rest
  end.

Fixpoint searchesIn (ticks : list Tick) : nat :=
  match ticks with
  | [] => 0
  | t :: rest =>
      if String.eqb (type (event t)) "response.web_search_call.searching"
      then S (searchesIn rest) else searchesIn rest
  end.

(** The object of the frame that ends the output, if any. *)
Definition closingObject (s : Status) (completedAt : Z) : list value :=
  match s with
  | Looping | Hung => []
  | Completed => [object_of (CompleteEvent completedAt)]
  | Caught reason => [errorObject reason]
  end.

(** The stream events job [k] of a request receives from the service. *)
Definition streamOf (w : World) (queries : list value) (k : nat) : list Tick :=
  match queries !! k with
  | Some q => ticksOf (create w k q)
  | None => []
  end.

(** A card: its text only grows and its count of searches never falls. *)
Definition extends (job job' : Client.ResearchJob) : Prop :=
  Client.id job' = Client.id job
  ∧ Client.query job' = Client.query job
  ∧ (∃ more, Client.content job' = Client.content job +:+ more)
  ∧ Client.searchCount job ≤ Client.searchCount job'.

(** A value whose conversion to a string, when it is appended to a text, is
    the string itself, or the name of a boolean, or which is falsy and
    replaced by the empty string. *)
Definition textual (v : value) : bool :=
  match v with
  | Undefined | Null | Bool _ | Str _ => true
  | Number _ | Array _ | Object _ => false
  end.

Definition responseCompleted (at_ : Z) : Tick :=
  {| event := {| type := "response.completed"; delta := EmptyString;
                 item_id := EmptyString; sequence_number := 0 |};
     now := at_ |}.

(** Both jobs stream a text delta and report completion. *)
Definition finishing : World :=
  {| create := λ job _,
       if job =? 0 then Streams [textDelta "a1" 1; responseCompleted 2] Returns
       else Streams [textDelta "b1" 3; responseCompleted 4] Returns;
     schedule := [1; 0; 0; 1];
     clock := 9 |}.

(* ===================================================================== *)
(** * The wire format: serialising and parsing back                       *)
(* ===================================================================== *)

Lemma append_cons x (a b : string) : String x a +:+ b = String x (a +:+ b).
Proof. done. Qed.

Lemma append_nil_l (a : string) : EmptyString +:+ a = a.
Proof. done. Qed.

Lemma append_assoc (a b c : string) : (a +:+ b) +:+ c = a +:+ (b +:+ c).
Proof. induction a as [|x a IH]; [done|]. by rewrite !append_cons, IH. Qed.

Lemma append_nil_r (a : string) : a +:+ EmptyString = a.
Proof. induction a as [|x a IH]; [done|]. by rewrite append_cons, IH. Qed.

Lemma append_length (a b : string) :
  String.length (a +:+ b) = String.length a + String.length b.
Proof. induction a as [|x a IH]; [done|]. rewrite append_cons. simpl. by rewrite IH. Qed.

(** ** Strings *)

Lemma parse_chars_escape c text :
  parse_chars (escape c +:+ text)
  = match parse_chars text with
    | Some (str, rest) => Some (String c str, rest)
    | None => None
    end.
Proof.
  destruct c as [[] [] [] [] [] [] [] []]; reflexivity.
Qed.

Lemma parse_chars_escapes s rest :
  parse_chars (escapes s +:+ String dquote rest) = Some (s, rest).
Proof.
  induction s as [|c s IH]; [done|].
  change (escapes (String c s)) with (escape c +:+ escapes s).
  by rewrite append_assoc, parse_chars_escape, IH.
Qed.

(** ** Numbers *)

Lemma stops_number_digit text :
  stops_number text →
  parse_digits text = (Nil, text) ∧ continues_number text = false.
Proof.
  destruct text as [|c r]; simpl; [done|]. by intros [-> | ->].
Qed.

Lemma parse_digits_digits u text :
  stops_number text → parse_digits (digits u +:+ text) = (u, text).
Proof.
  intros H. induction u; simpl; rewrite ?append_cons; simpl; rewrite ?IHu; try done.
  by apply stops_number_digit.
Qed.

Lemma to_uint_head p :
  match Pos.to_uint p with Nil | D0 _ => False | _ => True end.
Proof.
  pose proof (DecimalPos.Unsigned.to_of (Pos.to_uint p)) as H.
  rewrite DecimalPos.Unsigned.of_to in H. simpl in H.
  pose proof (DecimalPos.Unsigned.to_uint_nonnil p) as Hn.
  destruct (Pos.to_uint p) as [|d| | | | | | | | |] eqn:E; try done.
  unfold unorm in H. simpl in H.
  destruct (nzhead d) as [|u| | | | | | | | |] eqn:E2; try done.
  - injection H as ->. by destruct (DecimalPos.Unsigned.to_uint_nonzero p).
  - by destruct (DecimalFacts.nzhead_nonzero d u).
Qed.

Lemma parse_unsigned_digits u text :
  match u with Nil | D0 (D0 _ | D1 _ | D2 _ | D3 _ | D4 _ | D5 _ | D6 _ | D7 _ | D8 _ | D9 _) => False
  | _ => True end →
  stops_number text →
  parse_unsigned (digits u +:+ text) = Some (u, text).
Proof.
  intros Hu Ht. unfold parse_unsigned. rewrite parse_digits_digits by done.
  destruct (stops_number_digit _ Ht) as [_ ->].
  destruct u as [|[]| | | | | | | | |]; done.
Qed.

Lemma parse_number_number n text :
  stops_number text → parse_number (number n +:+ text) = Some (n, text).
Proof.
  intros Ht. unfold number.
  pose proof (DecimalZ.of_to n) as Hn.
  destruct n as [|p|p]; simpl in *.
  - destruct text as [|c r]; simpl; [done|]. by destruct Ht as [-> | ->].
  - pose proof (to_uint_head p) as Hp.
    assert (parse_unsigned (digits (Pos.to_uint p) +:+ text) = Some (Pos.to_uint p, text)) as H.
    { apply parse_unsigned_digits; [|done]. by destruct (Pos.to_uint p). }
    unfold parse_number.
    destruct (Pos.to_uint p) eqn:E; try done; simpl in *; rewrite H; by rewrite Hn.
  - pose proof (to_uint_head p) as Hp.
    rewrite parse_unsigned_digits; [by rewrite Hn|by destruct (Pos.to_uint p)|done].
Qed.

(** ** Flat objects: what the route puts on the wire *)

Lemma stringify_Object props :
  Forall (λ kv, scalar kv.2) props →
  stringify (Object props) = "{" +:+ join "," (map member props) +:+ "}".
Proof.
  intros H. simpl. do 3 f_equal.
  induction H as [|[k v] props Hv _ IH]; [done|].
  rewrite IH. by destruct v.
Qed.

Lemma skip_ws_nows c r : is_ws c = false → skip_ws (String c r) = String c r.
Proof. intros H. simpl. by rewrite H. Qed.

Lemma parse_value_eq_string fuel text :
  parse_value (S fuel) (String dquote text)
  = match parse_chars text with
    | Some (str, rest) => Some (Str str, rest)
    | None => None
    end.
Proof. done. Qed.

Lemma parse_value_eq_number fuel c r :
  c = "-"%char ∨ is_Some (digit_of c) →
  parse_value (S fuel) (String c r)
  = match parse_number (String c r) with
    | Some (n, rest) => Some (Number n, rest)
    | None => None
    end.
Proof.
  destruct c as [[] [] [] [] [] [] [] []];
    (intros [H|[x H]]; [try discriminate H|try discriminate H]); reflexivity.
Qed.

Lemma digits_head u text :
  u ≠ Nil → ∃ c r, digits u +:+ text = String c r ∧ is_Some (digit_of c).
Proof. destruct u; [done|..]; intros _; eexists _, _; (split; [reflexivity|by eexists]). Qed.

Lemma number_head n text :
  ∃ c r, number n +:+ text = String c r ∧ (c = "-"%char ∨ is_Some (digit_of c)).
Proof.
  unfold number. destruct n as [|p|p]; simpl.
  - eexists _, _. split; [reflexivity|right; by eexists].
  - destruct (digits_head (Pos.to_uint p) text) as (c & r & -> & H);
      [apply DecimalPos.Unsigned.to_uint_nonnil|]. eauto.
  - eexists _, _. split; [reflexivity|by left].
Qed.

Lemma parse_value_scalar fuel v text :
  scalar v → stops_number text →
  parse_value (S fuel) (stringify v +:+ text) = Some (v, text).
Proof.
  intros Hv Ht. destruct v as [| | |n|s| |]; try done.
  - destruct (number_head n text) as (c & r & E & Hc).
    change (stringify (Number n)) with (number n).
    rewrite E, parse_value_eq_number, <- E by done.
    by rewrite parse_number_number.
  - change (stringify (Str s)) with (quote s). unfold quote.
    rewrite append_cons, append_assoc, append_cons, append_nil_l.
    by rewrite parse_value_eq_string, parse_chars_escapes.
Qed.

Lemma parse_members_eq fuel acc text :
  parse_members (S fuel) acc (String dquote text)
  = match parse_chars text with
    | Some (k, r1) =>
        match skip_ws r1 with
        | String ":" r2 =>
            match parse_value fuel r2 with
            | Some (v, r3) =>
                match skip_ws r3 with
                | String "," r4 => parse_members fuel (Js.set k v acc) r4
                | String "}" r4 => Some (Object (Js.set k v acc), r4)
                | _ => None
                end
            | None => None
            end
        | _ => None
        end
    | None => None
    end.
Proof. done. Qed.

Lemma member_unfold k v tail :
  member (k, v) +:+ tail
  = String dquote (escapes k +:+ String dquote (String ":" (stringify v +:+ tail))).
Proof.
  unfold member, quote. simpl.
  by repeat (rewrite append_cons || rewrite append_assoc || rewrite append_nil_l).
Qed.

Lemma parse_members_one fuel acc k v tail :
  scalar v → stops_number tail →
  parse_members (S (S fuel)) acc (member (k, v) +:+ tail)
  = match tail with
    | String "," r4 => parse_members (S fuel) (Js.set k v acc) r4
    | String "}" r4 => Some (Object (Js.set k v acc), r4)
    | _ => None
    end.
Proof.
  intros Hv Ht.
  rewrite member_unfold, parse_members_eq, parse_chars_escapes.
  rewrite skip_ws_nows by done.
  rewrite parse_value_scalar by done.
  destruct tail as [|c r]; [done|].
  destruct Ht as [-> | ->]; by rewrite skip_ws_nows.
Qed.

Lemma parse_members_flat props :
  Forall (λ kv, scalar kv.2) props → props ≠ [] →
  ∀ fuel acc text, length props < fuel →
    parse_members fuel acc (join "," (map member props) +:+ String "}" text)
    = Some (Object (foldl (λ acc kv, Js.set kv.1 kv.2 acc) acc props), text).
Proof.
  induction 1 as [|[k v] props Hv Hrest IH]; [done|].
  intros _ fuel acc text Hfuel.
  destruct fuel as [|[|fuel]]; simpl in Hfuel; [lia..|].
  destruct props as [|kv props].
  - change (join "," (map member [(k, v)])) with (member (k, v)).
    by rewrite parse_members_one; [|done|by right].
  - change (join "," (map member ((k, v) :: kv :: props)))
      with (member (k, v) +:+ "," +:+ join "," (map member (kv :: props))).
    rewrite !append_assoc, parse_members_one; [|done|by left].
    rewrite append_cons, append_nil_l.
    rewrite IH; [done|done|simpl in *; lia].
Qed.

Lemma set_fresh k v acc :
  k ∉ map fst acc → Js.set k v acc = acc ++ [(k, v)].
Proof.
  induction acc as [|[k' v'] acc IH]; simpl; [done|].
  intros H. apply not_elem_of_cons in H as [Hne H].
  destruct (String.eqb_spec k k'); [done|]. by rewrite IH.
Qed.

Lemma foldl_set acc props :
  NoDup (map fst (acc ++ props)) →
  foldl (λ acc kv, Js.set kv.1 kv.2 acc) acc props = acc ++ props.
Proof.
  revert acc. induction props as [|[k v] props IH]; intros acc H; simpl.
  - by rewrite app_nil_r.
  - rewrite set_fresh.
    + rewrite IH; [by rewrite <- app_assoc|]. by rewrite <- app_assoc.
    + rewrite map_app in H. apply NoDup_app in H as (_ & H & _).
      intros Hin. apply (H k Hin). simpl. left.
Qed.

Lemma join_length l :
  Forall (λ s, 0 < String.length s) l → length l ≤ String.length (join "," l) + 0.
Proof.
  induction 1 as [|x l Hx _ IH]; [simpl; lia|].
  destruct l as [|y l]; [simpl in *; lia|].
  change (join "," (x :: y :: l)) with (x +:+ "," +:+ join "," (y :: l)).
  rewrite !append_length. simpl in *. lia.
Qed.

(** [JSON.parse (JSON.stringify o)] gives [o] back, for a flat object [o]. *)
Lemma parse_stringify props :
  flat props → parse (stringify (Object props)) = Some (Object props).
Proof.
  intros [Hs Hnd]. rewrite stringify_Object by done. unfold parse.
  destruct props as [|[k v] props]; [done|].
  set (l := map member ((k, v) :: props)).
  assert (length ((k, v) :: props) ≤ String.length (join "," l)) as Hlen.
  { pose proof (join_length l) as H. unfold l in *. rewrite length_map in H.
    rewrite Nat.add_0_r in H. apply H. apply Forall_map, Forall_true.
    intros [k' v']. unfold member, quote. simpl. lia. }
  assert (∃ r, join "," l = String dquote r) as [r Hr].
  { unfold l. destruct props; simpl; unfold member, quote; simpl; eauto. }
  rewrite (append_cons "{" EmptyString), append_nil_l.
  assert (∀ fuel, length ((k, v) :: props) < fuel →
    parse_value (S fuel) (String "{" (join "," l +:+ "}"))
    = Some (Object ((k, v) :: props), EmptyString)) as H.
  { intros fuel Hf.
    pose proof (parse_members_flat ((k, v) :: props) Hs ltac:(done) fuel [] EmptyString Hf) as Hm.
    rewrite foldl_set in Hm by done. fold l in Hm. simpl app in Hm.
    rewrite <- Hm. rewrite Hr. rewrite append_cons. reflexivity. }
  rewrite H; [done|].
  cbn [String.length]. rewrite append_length. simpl in *. lia.
Qed.

(** ** Frames and lines *)

Lemma one_line_app a b : one_line (a +:+ b) = one_line a && one_line b.
Proof.
  induction a as [|c a IH]; [done|]. rewrite append_cons. simpl.
  by rewrite IH, andb_assoc.
Qed.

Lemma one_line_escape c : one_line (escape c) = true.
Proof. destruct c as [[] [] [] [] [] [] [] []]; reflexivity. Qed.

Lemma one_line_escapes s : one_line (escapes s) = true.
Proof.
  induction s as [|c s IH]; [done|].
  change (escapes (String c s)) with (escape c +:+ escapes s).
  by rewrite one_line_app, one_line_escape, IH.
Qed.

Lemma one_line_quote s : one_line (quote s) = true.
Proof.
  unfold quote. cbn [one_line]. by rewrite one_line_app, one_line_escapes.
Qed.

Lemma one_line_digits u : one_line (digits u) = true.
Proof. induction u; simpl; by rewrite ?IHu. Qed.

Lemma one_line_number n : one_line (number n) = true.
Proof.
  unfold number. destruct (Z.to_int n); cbn [one_line]; by rewrite one_line_digits.
Qed.

Lemma one_line_member kv : scalar kv.2 → one_line (member kv) = true.
Proof.
  destruct kv as [k [| | |n|s| |]]; try done; intros _; unfold member;
    rewrite !one_line_app, one_line_quote; simpl.
  - apply one_line_number.
  - apply one_line_quote.
Qed.

Lemma one_line_join l :
  Forall (λ s, one_line s = true) l → one_line (join "," l) = true.
Proof.
  induction 1 as [|x l Hx Hl IH]; [done|].
  destruct l as [|y l]; [done|].
  change (join "," (x :: y :: l)) with (x +:+ "," +:+ join "," (y :: l)).
  by rewrite !one_line_app, Hx, IH.
Qed.

Lemma one_line_stringify props :
  Forall (λ kv, scalar kv.2) props → one_line (stringify (Object props)) = true.
Proof.
  intros H. rewrite stringify_Object by done.
  rewrite !one_line_app, one_line_join; [done|].
  apply Forall_map. eapply Forall_impl; [done|]. intros kv. apply one_line_member.
Qed.

Lemma split_line s rest :
  one_line s = true →
  Client.split (s +:+ String newline rest) = s :: Client.split rest.
Proof.
  induction s as [|c s IH]; [done|]. rewrite append_cons. simpl.
  intros [Hc Hs]%andb_prop. destruct (Ascii.eqb c newline); [done|].
  by rewrite IH.
Qed.

Lemma sse_line obj :
  sse (stringify obj) = line_of obj +:+ String newline (String newline EmptyString).
Proof. unfold sse, line_of. by rewrite append_assoc. Qed.

Lemma one_line_line_of props :
  Forall (λ kv, scalar kv.2) props → one_line (line_of (Object props)) = true.
Proof.
  intros H. unfold line_of. by rewrite one_line_app, one_line_stringify.
Qed.

Lemma split_frame props rest :
  Forall (λ kv, scalar kv.2) props →
  Client.split (sse (stringify (Object props)) +:+ rest)
  = line_of (Object props) :: EmptyString :: Client.split rest.
Proof.
  intros H. rewrite sse_line, append_assoc, append_cons.
  rewrite split_line by (by apply one_line_line_of).
  by rewrite append_cons, append_nil_l.
Qed.

Lemma processLine_empty st : Client.processLine st EmptyString = st.
Proof. done. Qed.

Lemma stringify_Object_head props :
  Forall (λ kv, scalar kv.2) props →
  ∃ r, stringify (Object props) = String "{" r.
Proof.
  intros H. rewrite stringify_Object by done.
  rewrite (append_cons "{" EmptyString), append_nil_l. eauto.
Qed.

Lemma processLine_line st props :
  flat props →
  Client.processLine st (line_of (Object props)) = Client.dispatch st (Object props).
Proof.
  intros Hf. pose proof Hf as [Hs _].
  destruct (stringify_Object_head props Hs) as [r Hr].
  unfold Client.processLine, line_of.
  assert (String.prefix "data: " ("data: " +:+ stringify (Object props)) = true) as ->.
  { rewrite Hr. reflexivity. }
  assert (Client.slice 6 ("data: " +:+ stringify (Object props))
          = stringify (Object props)) as -> by done.
  assert (String.eqb (stringify (Object props)) "[DONE]" = false) as ->.
  { rewrite Hr. reflexivity. }
  by rewrite parse_stringify.
Qed.

(** A chunk made of whole frames is decoded frame by frame. *)
Lemma processChunk_frames objs st :
  Forall (λ obj, ∃ props, obj = Object props ∧ flat props) objs →
  Client.processChunk st
    (foldr (λ obj text, sse (stringify obj) +:+ text) EmptyString objs)
  = foldl Client.dispatch st objs.
Proof.
  intros H. revert st. unfold Client.processChunk.
  induction H as [|obj objs (props & -> & Hf) _ IH]; intros st; [done|].
  cbn [foldr]. rewrite split_frame by apply Hf. cbn [foldl].
  by rewrite processLine_line, processLine_empty, IH.
Qed.
(* ===================================================================== *)
(** * The merge loop: invariants                                          *)
(* ===================================================================== *)

Lemma has_outstanding_lookup gens g :
  has_outstanding gens g = true ↔
  ∃ a, gens !! g = Some a ∧ served a < issued a.
Proof.
  unfold has_outstanding. destruct (gens !! g) as [a|]; split.
  - intros H. exists a. split; [done|]. by apply Nat.ltb_lt.
  - intros (a' & [= <-] & H). by apply Nat.ltb_lt.
  - done.
  - by intros (a' & [=] & _).
Qed.

Lemma nextArrival_outstanding arrivals gens g rest :
  nextArrival arrivals gens = Some (g, rest) → has_outstanding gens g = true.
Proof.
  induction arrivals as [|x xs IH]; simpl.
  - destruct (List.find _ _) as [k|] eqn:E; [|done].
    intros [= <- <-]. by apply List.find_some in E as [_ ?].
  - destruct (has_outstanding gens x) eqn:E; [|done].
    by intros [= <- <-].
Qed.

Lemma nextArrival_is_Some arrivals gens g :
  has_outstanding gens g = true → is_Some (nextArrival arrivals gens).
Proof.
  intros Hg. induction arrivals as [|x xs IH]; simpl.
  - destruct (List.find _ _) as [k|] eqn:E; [by eexists|].
    exfalso. eapply List.find_none in E.
    + by rewrite Hg in E.
    + apply has_outstanding_lookup in Hg as (a & Ha & _).
      apply lookup_lt_Some in Ha. apply in_seq. lia.
  - destruct (has_outstanding gens x); [by eexists|done].
Qed.

Lemma project_app g t1 t2 : project g (t1 ++ t2) = project g t1 ++ project g t2.
Proof. unfold project. by rewrite filter_app, map_app. Qed.

Lemma project_one_eq g e : project g [(g, e)] = [e].
Proof. unfold project. rewrite filter_cons_True by done. done. Qed.

Lemma project_one_ne g g' e : g' ≠ g → project g [(g', e)] = [].
Proof. intros. unfold project. rewrite filter_cons_False by done. done. Qed.

Lemma Slot_status m s' g a0 a :
  Slot m Looping g a0 a → Slot m s' g a0 a.
Proof.
  intros [H1 H2 H3|H1 H2 H3 H4|reason H _ _ _ _].
  - by apply Awaited.
  - by apply Retired.
  - done.
Qed.

Lemma settle_cases a :
  served a < issued a →
  (∃ e rest, script a = e :: rest ∧
     settle a = Some (served a, Fulfilled (Yielded e),
       {| script := rest; ending := ending a; issued := issued a; served := S (served a) |}))
  ∨ (script a = [] ∧ ending a = Returns ∧
     settle a = Some (served a, Fulfilled Finished,
       {| script := []; ending := Returns; issued := issued a; served := S (served a) |}))
  ∨ (∃ reason, script a = [] ∧ ending a = Throws reason ∧
     settle a = Some (served a, Rejected reason,
       {| script := []; ending := Returns; issued := issued a; served := S (served a) |})).
Proof.
  intros H. apply Nat.ltb_lt in H. unfold settle. rewrite H.
  destruct (script a) as [|e rest]; [destruct (ending a) as [|reason]|]; eauto 10.
Qed.

Lemma step_finished r : status r ≠ Looping → step r = r.
Proof. unfold step. by destruct (status r). Qed.

Lemma step_Turn gens0 r : Inv gens0 r → status r = Looping → Turn r (step r).
Proof.
  intros [Hlen Hhung Hdom (trace & Hout & Hrange & Hslots) Hclosed Hcompl Hcaught] Hst.
  unfold step. rewrite Hst.
  destruct (size (pendingPromises r) =? 0) eqn:Hsize.
  { apply Nat.eqb_eq, map_size_empty_inv in Hsize. by apply turn_leave. }
  apply Nat.eqb_neq in Hsize.
  assert (∃ g p, pendingPromises r !! g = Some p) as (g1 & p1 & Hg1).
  { destruct (map_choose (pendingPromises r)) as (g & p & ?); [|by eauto].
    intros E. by rewrite E, map_size_empty in Hsize. }
  assert (has_outstanding (generators r) g1 = true) as Hout1.
  { apply has_outstanding_lookup.
    assert (g1 < length gens0) as Hlt by (apply Hdom; eauto).
    destruct (lookup_lt_is_Some_2 gens0 g1 Hlt) as [a0 Ha0].
    destruct (lookup_lt_is_Some_2 (generators r) g1) as [a Ha]; [lia|].
    exists a. split; [done|].
    destruct (Hslots _ _ _ Ha0 Ha) as [_ _ [H1 H2 _|H1 _ _ _|? ? _ _ _ _]];
      [lia|congruence|congruence]. }
  destruct (nextArrival_is_Some (arrivals r) _ _ Hout1) as [[g rest] Hnext].
  rewrite Hnext.
  pose proof Hnext as Hnext'.
  apply nextArrival_outstanding, has_outstanding_lookup in Hnext' as (a & Ha & Hlt).
  rewrite Ha. simpl.
  assert (g < length gens0) as Hg by (rewrite <- Hlen; by eapply lookup_lt_Some).
  destruct (lookup_lt_is_Some_2 gens0 g Hg) as [a0 Ha0].
  destruct (Hslots _ _ _ Ha0 Ha) as [Hscr _ [Hp Hiss Hend|_ ? _ _|? ? _ _ _ _]];
    [|lia|congruence].
  destruct (settle_cases a Hlt)
    as [(e & rest0 & Hscript & Hsettle)
       |[(Hscript & Hending & Hsettle)|(reason & Hscript & Hending & Hsettle)]];
    rewrite Hsettle; simpl; rewrite bool_decide_eq_true_2 by done; simpl.
  - by eapply turn_forward.
  - by eapply turn_retire.
  - by eapply turn_catch.
Qed.

Lemma Tracked_status m s' trace g a0 a :
  Tracked m Looping trace g a0 a → Tracked m s' trace g a0 a.
Proof. intros [? ? ?]. constructor; [done..|by apply Slot_status]. Qed.

Lemma Tracked_other m m' trace x g a0 a :
  m' !! g = m !! g → x.1 ≠ g →
  Tracked m Looping trace g a0 a → Tracked m' Looping (trace ++ [x]) g a0 a.
Proof.
  intros Hm Hx [Hs Hc Hslot]. destruct x as [g' e]. simpl in Hx.
  assert (project g (trace ++ [(g', e)]) = project g trace) as Hpr.
  { by rewrite project_app, project_one_ne, app_nil_r. }
  constructor; rewrite ?Hpr; [done..|].
  destruct Hslot as [? ? ?|? ? ? ?|? ? ? ? ? ?]; [| |congruence].
  - apply Awaited; [by rewrite Hm|done..].
  - apply Retired; [by rewrite Hm|done..].
Qed.

Lemma Tracked_map m m' trace g a0 a :
  m' !! g = m !! g →
  Tracked m Looping trace g a0 a → Tracked m' Looping trace g a0 a.
Proof.
  intros Hm [Hs Hc Hslot]. constructor; [done..|].
  destruct Hslot as [? ? ?|? ? ? ?|? ? ? ? ? ?]; [| |congruence].
  - apply Awaited; [by rewrite Hm|done..].
  - apply Retired; [by rewrite Hm|done..].
Qed.

Lemma Inv_step gens0 r : Inv gens0 r → Inv gens0 (step r).
Proof.
  intros HI.
  destruct (status r) eqn:Hst; try (by rewrite step_finished by congruence).
  pose proof (step_Turn gens0 r HI Hst) as HT.
  destruct HI as [Hlen Hhung Hdom (trace & Hout & Hrange & Hslots) Hclosed Hcompl Hcaught].
  rewrite Hst in *. simpl in Hout. rewrite app_nil_r in Hout.
  destruct HT as [Hempty|g rest a e rest0 _ Ha Hp Hiss Hscr
                  |g rest a _ Ha Hp Hiss Hscr Hend|g rest a reason _ Ha Hp Hiss Hscr Hend].
  - (* the loop is left *)
    constructor; simpl; rewrite ?Hst; try done.
    exists trace. rewrite Hout. split; [done|]. split; [done|].
    intros g a0 a H0 H. by apply Tracked_status, Hslots.
  - (* an event: forward it, then ask for the next one *)
    assert (g < length gens0) as Hg by (rewrite <- Hlen; by eapply lookup_lt_Some).
    unfold poll. simpl.
    rewrite list_lookup_insert_eq by (by eapply lookup_lt_Some). simpl.
    rewrite list_insert_insert_eq.
    constructor; simpl; rewrite ?Hst, ?length_insert; try done.
    + intros k [p Hk]. destruct (decide (k = g)) as [->|Hne]; [done|].
      rewrite lookup_insert_ne in Hk by done. apply Hdom. by exists p.
    + exists (trace ++ [(g, e)]). rewrite Hout, map_app. simpl.
      rewrite app_nil_r. split; [done|].
      split; [apply Forall_app; split; [done|by apply Forall_singleton]|].
      intros k b0 b Hb0 Hb. destruct (decide (k = g)) as [->|Hne].
      * rewrite list_lookup_insert_eq in Hb by (by eapply lookup_lt_Some).
        injection Hb as <-. destruct (Hslots _ _ _ Hb0 Ha) as [Hs Hc Hslot].
        constructor; simpl; rewrite ?project_app, ?project_one_eq.
        -- by rewrite Hs, Hscr, <- app_assoc.
        -- rewrite length_app. simpl. lia.
        -- destruct Hslot as [_ _ Hend|? ? _ _|? ? _ _ _ _]; [|congruence..].
           apply Awaited; simpl; [by rewrite lookup_insert_eq, Hiss|lia|done].
      * rewrite list_lookup_insert_ne in Hb by done.
        eapply Tracked_other; [|done|by apply Hslots]. by rewrite lookup_insert_ne.
  - (* done: the generator is retired *)
    constructor; simpl; rewrite ?Hst, ?length_insert; try done.
    + intros k [p Hk]. apply Hdom. exists p.
      destruct (decide (k = g)) as [->|Hne];
        [by rewrite lookup_delete_eq in Hk|by rewrite lookup_delete_ne in Hk].
    + exists trace. rewrite Hout, app_nil_r. split; [done|]. split; [done|].
      intros k b0 b Hb0 Hb. destruct (decide (k = g)) as [->|Hne].
      * rewrite list_lookup_insert_eq in Hb by (by eapply lookup_lt_Some).
        injection Hb as <-. destruct (Hslots _ _ _ Hb0 Ha) as [Hs Hc Hslot].
        constructor; simpl; [by rewrite Hs, Hscr|done|].
        destruct Hslot as [_ _ Hend'|? ? _ _|? ? _ _ _ _]; [|congruence..].
        apply Retired; simpl; [apply lookup_delete_eq|lia|done|congruence].
      * rewrite list_lookup_insert_ne in Hb by done.
        eapply Tracked_map; [|by apply Hslots]. by rewrite lookup_delete_ne.
  - (* rejection: the catch block *)
    constructor; simpl; rewrite ?length_insert; try done.
    + exists trace. rewrite Hout. split; [done|]. split; [done|].
      intros k b0 b Hb0 Hb. destruct (decide (k = g)) as [->|Hne].
      * rewrite list_lookup_insert_eq in Hb by (by eapply lookup_lt_Some).
        injection Hb as <-. destruct (Hslots _ _ _ Hb0 Ha) as [Hs Hc Hslot].
        constructor; simpl; [by rewrite Hs, Hscr|done|].
        destruct Hslot as [_ _ Hend'|? ? _ _|? ? _ _ _ _]; [|congruence..].
        eapply Failed; simpl; [done|by eauto|lia|done|congruence].
      * rewrite list_lookup_insert_ne in Hb by done.
        by apply Tracked_status, Hslots.
    + intros reason' [= <-].
      assert (g < length gens0) as Hg by (rewrite <- Hlen; by eapply lookup_lt_Some).
      destruct (lookup_lt_is_Some_2 gens0 g Hg) as [a0 Ha0].
      exists g, a0. split; [done|].
      destruct (Hslots _ _ _ Ha0 Ha) as [_ _ [_ _ Hend'|? ? _ _|? ? _ _ _ _]];
        congruence.
Qed.

Lemma sum_list_insert {A} (f : A → nat) (l : list A) (i : nat) (x y : A) :
  l !! i = Some x →
  sum_list (map f (<[i := y]> l)) + f x = sum_list (map f l) + f y.
Proof.
  revert i. induction l as [|z l IH]; intros [|i] H; simplify_eq/=.
  - lia.
  - specialize (IH _ H). lia.
Qed.

Lemma Turn_remaining r r' :
  status r = Looping → Turn r r' → remaining r' < remaining r.
Proof.
  intros Hst HT. unfold remaining at 2. rewrite Hst.
  destruct HT as [Hempty|g rest a e rest0 _ Ha Hp Hiss Hscr
                  |g rest a _ Ha Hp Hiss Hscr Hend|g rest a reason _ Ha Hp Hiss Hscr Hend].
  - unfold remaining. simpl. lia.
  - unfold remaining, poll. simpl.
    rewrite list_lookup_insert_eq by (by eapply lookup_lt_Some). simpl.
    rewrite Hst, list_insert_insert_eq.
    rewrite map_size_insert_Some by eauto.
    pose proof (sum_list_insert (λ a, length (script a)) _ g a
      {| script := rest0; ending := ending a; issued := S (issued a);
         served := S (served a) |} Ha) as H.
    simpl in H. rewrite Hscr in H. simpl in H. lia.
  - unfold remaining. simpl. rewrite Hst.
    pose proof (map_size_delete_Some g (pendingPromises r) (mk_is_Some _ _ Hp)) as Hd.
    pose proof (map_size_ne_0_lookup_2 (pendingPromises r) g (mk_is_Some _ _ Hp)).
    pose proof (sum_list_insert (λ a, length (script a)) _ g a
      {| script := []; ending := Returns; issued := issued a;
         served := S (served a) |} Ha) as H1.
    simpl in H1. rewrite Hscr in H1. simpl in H1. lia.
  - unfold remaining. simpl. lia.
Qed.

Lemma steps_S n r : steps (S n) r = step (steps n r).
Proof. done. Qed.

Lemma Inv_steps gens0 n r : Inv gens0 r → Inv gens0 (steps n r).
Proof. intros H. induction n; [done|]. rewrite steps_S. by apply Inv_step. Qed.

Lemma remaining_zero r : remaining r = 0 ↔ status r ≠ Looping.
Proof. unfold remaining. destruct (status r); split; (done || lia || congruence). Qed.

Lemma steps_remaining gens0 n r :
  Inv gens0 r → remaining (steps n r) ≤ remaining r - n.
Proof.
  intros HI. induction n as [|n IH]; [simpl; lia|].
  rewrite steps_S.
  destruct (decide (remaining (steps n r) = 0)) as [Hz|Hnz].
  - rewrite step_finished by (by apply remaining_zero). lia.
  - assert (status (steps n r) = Looping) as Hst.
    { unfold remaining in Hnz. by destruct (status (steps n r)). }
    pose proof (Turn_remaining _ _ Hst (step_Turn gens0 _ (Inv_steps _ n _ HI) Hst)).
    lia.
Qed.

Lemma poll_length g r : length (generators (poll g r)) = length (generators r).
Proof.
  unfold poll. destruct (generators r !! g); simpl; [|done].
  by rewrite length_insert.
Qed.

Lemma start_prefix gens arr clock k :
  k ≤ length gens →
  let r := foldl (λ r g, poll g r)
             {| generators := gens; pendingPromises := ∅;
                controller := {| enqueued := []; closed := false |};
                status := Looping; arrivals := arr; completedAt := clock |}
             (seq 0 k) in
  length (generators r) = length gens
  ∧ (∀ g, generators r !! g
          = if decide (g < k) then (λ a, (next a).2) <$> gens !! g else gens !! g)
  ∧ (∀ g, pendingPromises r !! g
          = if decide (g < k)
            then (λ a, {| gen := g; ticket := issued a |}) <$> gens !! g else None)
  ∧ controller r = {| enqueued := []; closed := false |}
  ∧ status r = Looping ∧ arrivals r = arr ∧ completedAt r = clock.
Proof.
  induction k as [|k IH]; intros Hk r.
  - subst r. simpl. repeat split; intros; by case_decide; try lia.
  - subst r. rewrite seq_S, foldl_app. simpl.
    destruct IH as (Hlen & Hgens & Hpend & Hc & Hs & Ha & Ht); [lia|].
    set (r := foldl _ _ _) in *.
    destruct (lookup_lt_is_Some_2 gens k) as [a Ha0]; [lia|].
    assert (generators r !! k = Some a) as Hrk.
    { rewrite Hgens. case_decide; [lia|done]. }
    unfold poll. rewrite Hrk. simpl.
    repeat split; try done.
    + by rewrite length_insert.
    + intros g. destruct (decide (g = k)) as [->|Hne].
      * rewrite list_lookup_insert_eq by (by eapply lookup_lt_Some).
        case_decide; [|lia]. by rewrite Ha0.
      * rewrite list_lookup_insert_ne by done. rewrite Hgens.
        repeat case_decide; (done || lia).
    + intros g. destruct (decide (g = k)) as [->|Hne].
      * rewrite lookup_insert_eq. case_decide; [|lia]. by rewrite Ha0.
      * rewrite lookup_insert_ne by done. rewrite Hpend.
        repeat case_decide; (done || lia).
Qed.

Lemma start_spec gens arr clock :
  let r := start gens arr clock in
  length (generators r) = length gens
  ∧ (∀ g, generators r !! g = (λ a, (next a).2) <$> gens !! g)
  ∧ (∀ g, pendingPromises r !! g
          = (λ a, {| gen := g; ticket := issued a |}) <$> gens !! g)
  ∧ controller r = {| enqueued := []; closed := false |}
  ∧ status r = Looping ∧ arrivals r = arr ∧ completedAt r = clock.
Proof.
  destruct (start_prefix gens arr clock (length gens)) as (H1 & H2 & H3 & H4);
    [done|].
  unfold start. repeat split; try tauto.
  - intros g. rewrite H2. case_decide; [done|].
    rewrite (lookup_ge_None_2 gens g) by lia. done.
  - intros g. rewrite H3. case_decide; [done|].
    rewrite (lookup_ge_None_2 gens g) by lia. done.
Qed.

Lemma Inv_start gens arr clock :
  Forall Fresh gens → Inv gens (start gens arr clock).
Proof.
  intros Hfresh.
  destruct (start_spec gens arr clock) as (Hlen & Hgens & Hpend & Hc & Hs & Ha & Ht).
  constructor; rewrite ?Hs, ?Hc; try done.
  - intros g [p Hp]. rewrite Hpend in Hp.
    destruct (gens !! g) eqn:E; [|done]. by eapply lookup_lt_Some.
  - exists []. split; [done|]. split; [done|].
    intros g a0 a Ha0 Hga. rewrite Hgens, Ha0 in Hga. injection Hga as <-.
    eapply Forall_lookup_1 in Hfresh as [Hi Hsv]; [|done].
    constructor; simpl; [done|lia|].
    apply Awaited; simpl; [|lia|done].
    rewrite Hpend, Ha0. simpl. by rewrite Hi, Hsv.
Qed.

(** Every run comes to an end within its budget. *)
Lemma remaining_start gens arr clock :
  remaining (start gens arr clock) ≤ budget gens.
Proof.
  destruct (start_spec gens arr clock) as (Hlen & Hgens & Hpend & Hc & Hs & Ha & Ht).
  unfold remaining, budget. rewrite Hs.
  assert (size (pendingPromises (start gens arr clock)) ≤ length gens).
  { rewrite <- size_dom.
    assert (dom (pendingPromises (start gens arr clock)) ⊆ list_to_set (seq 0 (length gens))) as Hsub.
    { intros g Hg. apply elem_of_dom in Hg as [p Hp]. rewrite Hpend in Hp.
      destruct (gens !! g) eqn:E; [|done]. apply lookup_lt_Some in E.
      apply elem_of_list_to_set, elem_of_seq. lia. }
    apply subseteq_size in Hsub. rewrite size_list_to_set in Hsub by apply NoDup_seq.
    by rewrite length_seq in Hsub. }
  assert (generators (start gens arr clock) = (λ a, (next a).2) <$> gens) as ->.
  { apply list_eq. intros g. by rewrite Hgens, list_lookup_fmap. }
  assert (map (λ a, length (script a)) ((λ a, (next a).2) <$> gens)
          = map (λ a, length (script a)) gens) as ->.
  { rewrite <- list_fmap_compose. done. }
  lia.
Qed.

Lemma mergeStreams_Inv gens arr clock :
  Forall Fresh gens → Inv gens (mergeStreams gens arr clock).
Proof. intros. by apply Inv_steps, Inv_start. Qed.

Lemma mergeStreams_left_loop gens arr clock :
  Forall Fresh gens → status (mergeStreams gens arr clock) ≠ Looping.
Proof.
  intros Hf. apply remaining_zero.
  pose proof (steps_remaining gens (budget gens) _ (Inv_start gens arr clock Hf)).
  pose proof (remaining_start gens arr clock). unfold mergeStreams. lia.
Qed.

(* ===================================================================== *)
(** * Runs of the merge loop                                              *)
(* ===================================================================== *)

Lemma poll_completedAt g r : completedAt (poll g r) = completedAt r.
Proof. unfold poll. by destruct (generators r !! g). Qed.

Lemma step_completedAt r : completedAt (step r) = completedAt r.
Proof.
  unfold step. repeat case_match; try done.
  unfold handle. case_match; [|done]. by rewrite poll_completedAt.
Qed.

Lemma steps_completedAt n r : completedAt (steps n r) = completedAt r.
Proof. induction n as [|n IH]; [done|]. by rewrite steps_S, step_completedAt. Qed.

Lemma start_completedAt gens arr clock : completedAt (start gens arr clock) = clock.
Proof. by destruct (start_spec gens arr clock) as (_ & _ & _ & _ & _ & _ & ?). Qed.

Lemma mergeStreams_completedAt gens arr clock :
  completedAt (mergeStreams gens arr clock) = clock.
Proof. unfold mergeStreams. by rewrite steps_completedAt, start_completedAt. Qed.

Lemma project_elem g e trace : (g, e) ∈ trace → e ∈ project g trace.
Proof.
  intros H. unfold project. apply list_elem_of_fmap. exists (g, e).
  split; [done|]. by apply list_elem_of_filter.
Qed.

Lemma project_out_of_range g n trace :
  Forall (λ x, x.1 < n) trace → n ≤ g → project g trace = [].
Proof.
  intros H Hg. unfold project.
  induction H as [|[g' e] trace Hx _ IH]; [done|].
  simpl in Hx. rewrite filter_cons_False by (simpl; lia). done.
Qed.

(** Whatever has been forwarded came out of the script of its generator. *)
Lemma Inv_origin gens0 r trace g e :
  length (generators r) = length gens0 →
  Forall (λ x, x.1 < length gens0) trace →
  (∀ g a0 a, gens0 !! g = Some a0 → generators r !! g = Some a →
     Tracked (pendingPromises r) (status r) trace g a0 a) →
  (g, e) ∈ trace →
  ∃ a0, gens0 !! g = Some a0 ∧ e ∈ script a0.
Proof.
  intros Hlen Hrange Hslots Hin.
  assert (g < length gens0) as Hg.
  { rewrite Forall_forall in Hrange. by apply (Hrange _ Hin). }
  destruct (lookup_lt_is_Some_2 gens0 g Hg) as [a0 Ha0].
  destruct (lookup_lt_is_Some_2 (generators r) g) as [a Ha]; [lia|].
  exists a0. split; [done|].
  destruct (Hslots _ _ _ Ha0 Ha) as [Hs _ _]. rewrite Hs.
  apply elem_of_app. left. by apply project_elem.
Qed.

(** A run ends either past the loop or in the catch block. *)
Lemma mergeStreams_outcome gens arr clock :
  Forall Fresh gens →
  status (mergeStreams gens arr clock) = Completed
  ∨ ∃ reason, status (mergeStreams gens arr clock) = Caught reason.
Proof.
  intros Hf.
  pose proof (mergeStreams_left_loop gens arr clock Hf).
  pose proof (inv_hung _ _ (mergeStreams_Inv gens arr clock Hf)).
  destruct (status (mergeStreams gens arr clock)); eauto; done.
Qed.

(** The run is caught exactly when some generator throws. *)
Lemma mergeStreams_Caught gens arr clock :
  Forall Fresh gens →
  (∃ reason, status (mergeStreams gens arr clock) = Caught reason)
  ↔ ¬ NeverThrows gens.
Proof.
  intros Hf. pose proof (mergeStreams_Inv gens arr clock Hf) as HI.
  split.
  - intros [reason Hst] Hnt.
    destruct (inv_caught _ _ HI reason Hst) as (g & a0 & Ha0 & Hend).
    eapply Forall_lookup_1 in Hnt; [|done]. congruence.
  - intros Hnt. destruct (mergeStreams_outcome gens arr clock Hf) as [Hc|?]; [|done].
    exfalso. apply Hnt. apply Forall_lookup_2. intros g a0 Ha0.
    destruct (lookup_lt_is_Some_2 (generators (mergeStreams gens arr clock)) g) as [a Ha].
    { rewrite (inv_length _ _ HI). by eapply lookup_lt_Some. }
    destruct (inv_trace _ _ HI) as (trace & _ & _ & Hslots).
    destruct (Hslots _ _ _ Ha0 Ha) as [_ _ [Hp _ _|_ _ _ ?|reason ? _ _ _ _]];
      [|done|congruence].
    rewrite (inv_completed _ _ HI Hc) in Hp. by rewrite lookup_empty in Hp.
Qed.

(** Past the loop, everything was forwarded and every generator is retired. *)
Lemma Completed_summary gens0 r :
  Inv gens0 r → status r = Completed →
  pendingPromises r = ∅
  ∧ Forall (λ a, script a = [] ∧ outstanding a = 0) (generators r)
  ∧ ∃ trace,
      enqueued (controller r)
        = map (λ x, frame x.2) trace ++ [frame (CompleteEvent (completedAt r))]
      ∧ Merged gens0 trace
      ∧ (∀ g e, (g, e) ∈ trace → ∃ a0, gens0 !! g = Some a0 ∧ e ∈ script a0).
Proof.
  intros HI Hc. pose proof (inv_completed _ _ HI Hc) as Hempty.
  destruct (inv_trace _ _ HI) as (trace & Hout & Hrange & Hslots).
  assert (∀ g a0 a, gens0 !! g = Some a0 → generators r !! g = Some a →
    script a = [] ∧ outstanding a = 0 ∧ script a0 = project g trace) as Hret.
  { intros g a0 a Ha0 Ha.
    destruct (Hslots _ _ _ Ha0 Ha) as [Hs _ [Hp _ _|_ Hi Hsc _|reason ? _ _ _ _]];
      [|..|congruence].
    - rewrite Hempty in Hp. by rewrite lookup_empty in Hp.
    - unfold outstanding. rewrite Hs, Hsc, app_nil_r. split_and!; [done|lia|done]. }
  split; [done|]. split.
  - apply Forall_lookup_2. intros g a Ha.
    destruct (lookup_lt_is_Some_2 gens0 g) as [a0 Ha0].
    { rewrite <- (inv_length _ _ HI). by eapply lookup_lt_Some. }
    by destruct (Hret _ _ _ Ha0 Ha) as (? & ? & _).
  - exists trace. rewrite Hc in Hout. split; [done|]. split.
    + intros g. destruct (gens0 !! g) as [a0|] eqn:Ha0; simpl.
      * destruct (lookup_lt_is_Some_2 (generators r) g) as [a Ha].
        { rewrite (inv_length _ _ HI). by eapply lookup_lt_Some. }
        by destruct (Hret _ _ _ Ha0 Ha) as (_ & _ & ->).
      * eapply project_out_of_range; [done|]. by apply lookup_ge_None.
    + intros g e. eapply Inv_origin; [apply HI|done|done].
Qed.

Lemma mergeStreams_Completed gens arr clock :
  Forall Fresh gens → NeverThrows gens →
  status (mergeStreams gens arr clock) = Completed.
Proof.
  intros Hf Hnt. destruct (mergeStreams_outcome gens arr clock Hf) as [|Hc]; [done|].
  by apply mergeStreams_Caught in Hc.
Qed.

(* ===================================================================== *)
(** * Events on the wire                                                  *)
(* ===================================================================== *)

Lemma object_of_flat e : ∃ props, object_of e = Object props ∧ flat props.
Proof.
  destruct e; eexists; (split; [reflexivity|]); unfold flat; (split;
    [repeat (apply Forall_cons_2; [exact I|]); apply Forall_nil_2
    |apply (bool_decide_unpack _); by vm_compute]).
Qed.

Lemma errorObject_flat reason : ∃ props, errorObject reason = Object props ∧ flat props.
Proof.
  eexists. split; [reflexivity|]. unfold flat. split;
    [repeat (apply Forall_cons_2; [exact I|]); apply Forall_nil_2
    |apply (bool_decide_unpack _); by vm_compute].
Qed.

Lemma errorData_stringify reason : errorData reason = stringify (errorObject reason).
Proof. done. Qed.

Lemma object_of_inj e e' : object_of e = object_of e' → e = e'.
Proof. destruct e, e'; simpl; intros [=]; by subst. Qed.

Lemma carried_sse props :
  flat props → carried (sse (stringify (Object props))) = Some (Object props).
Proof.
  intros Hf. pose proof Hf as [Hs _]. unfold carried.
  rewrite <- (append_nil_r (sse _)), split_frame by done.
  destruct (stringify_Object_head props Hs) as [r Hr].
  unfold line_of.
  assert (String.prefix "data: " ("data: " +:+ stringify (Object props)) = true) as ->.
  { rewrite Hr. reflexivity. }
  assert (Client.slice 6 ("data: " +:+ stringify (Object props))
          = stringify (Object props)) as -> by done.
  by apply parse_stringify.
Qed.

Lemma carried_frame e : carried (frame e) = Some (object_of e).
Proof.
  destruct (object_of_flat e) as (props & E & Hf). unfold frame.
  rewrite E. by apply carried_sse.
Qed.

Lemma carried_errorData reason :
  carried (sse (errorData reason)) = Some (errorObject reason).
Proof.
  destruct (errorObject_flat reason) as (props & E & Hf).
  rewrite errorData_stringify, E. by apply carried_sse.
Qed.

Lemma frame_inj e e' : frame e = frame e' → e = e'.
Proof.
  intros H. apply object_of_inj.
  pose proof (carried_frame e) as H1. rewrite H, carried_frame in H1. congruence.
Qed.

Lemma frame_not_errorData e reason : frame e ≠ sse (errorData reason).
Proof.
  intros H. pose proof (carried_frame e) as H1.
  rewrite H, carried_errorData in H1. by destruct e, reason.
Qed.

Lemma eventShaped_object_of e : eventShaped (object_of e).
Proof.
  destruct e; eexists; (split; [reflexivity|]); (split; [reflexivity|]);
    split; done.
Qed.

(* ===================================================================== *)
(** * The generators of a request                                         *)
(* ===================================================================== *)

Lemma generatorsFor_lookup w queries g :
  generatorsFor w queries !! g
  = (λ q, runSingleDeepResearch (create w g q) g) <$> queries !! g.
Proof. unfold generatorsFor. by rewrite list_lookup_imap. Qed.

Lemma runSingleDeepResearch_Fresh openai jobId :
  Fresh (runSingleDeepResearch openai jobId).
Proof. by destruct openai. Qed.

Lemma generatorsFor_Fresh w queries : Forall Fresh (generatorsFor w queries).
Proof.
  apply Forall_lookup_2. intros g a. rewrite generatorsFor_lookup.
  destruct (queries !! g); [|done]. intros [= <-]. apply runSingleDeepResearch_Fresh.
Qed.

(** The six guards of the body are mutually exclusive. *)
Lemma body_cases jobId t :
  body jobId t = [] ∨ ∃ e, body jobId t = [e] ∧ isComplete e = false.
Proof.
  unfold body.
  repeat match goal with
         | |- context [String.eqb ?a ?b] => destruct (String.eqb_spec a b) as [E|_]
         end;
    try (rewrite E in *; clear E); simpl; eauto; try congruence.
Qed.

Lemma body_not_complete jobId t e : e ∈ body jobId t → isComplete e = false.
Proof.
  destruct (body_cases jobId t) as [->|(e' & -> & H)].
  - by intros ?%elem_of_nil.
  - by intros ->%list_elem_of_singleton.
Qed.

Lemma runSingleDeepResearch_script openai jobId e :
  e ∈ script (runSingleDeepResearch openai jobId) → isComplete e = false.
Proof.
  destruct openai as [reason|ticks ending]; simpl.
  - by intros ?%elem_of_nil.
  - intros H. apply list_elem_of_In, in_flat_map in H as (t & _ & H).
    eapply body_not_complete. by apply list_elem_of_In.
Qed.

Lemma generatorsFor_script w queries g a e :
  generatorsFor w queries !! g = Some a → e ∈ script a → isComplete e = false.
Proof.
  rewrite generatorsFor_lookup. destruct (queries !! g); [|done].
  intros [= <-]. apply runSingleDeepResearch_script.
Qed.

(* ===================================================================== *)
(** * The merge loop: what the specification says of it                   *)
(* ===================================================================== *)

Lemma broken_run :
  let r := mergeStreams (generatorsFor broken queriesOf_twoQueries)
             (schedule broken) (clock broken) in
  enqueued (controller r) = [sse (errorData (Error "boom"))]
  ∧ status r = Caught (Error "boom")
  ∧ closed (controller r) = true.
Proof. by vm_compute. Qed.

Lemma POST_broken :
  POST broken twoQueries
  = EventStream (mergeStreams (generatorsFor broken queriesOf_twoQueries)
                   (schedule broken) (clock broken)).
Proof. done. Qed.

(** C1, as stated, fails: when the request of job 0 throws, the run of
    [POST broken twoQueries] ends in the catch block and the event that job 1
    yields is never forwarded. *)
Lemma merge_loses_events_when_a_request_throws :
  let gens := generatorsFor broken queriesOf_twoQueries in
  Forall Fresh gens ∧ 1 ≤ length gens
  ∧ ¬ ForwardsAll gens (mergeStreams gens (schedule broken) (clock broken)).
Proof.
  split; [apply generatorsFor_Fresh|]. split; [simpl; lia|].
  intros (trace & Hout & Hm).
  destruct broken_run as (HE & Hs & _). rewrite Hs, HE in Hout. simpl in Hout.
  destruct trace as [|x trace]; [|by destruct trace].
  specialize (Hm 1). by vm_compute in Hm.
Qed.

(** C1 (amended): for any number of generators and every schedule of
    arrivals, provided no [next()] promise rejects, the output of the merge
    loop is the framed events of a sequence that contains the events of each
    generator exactly once and in the order in which that generator yields
    them, followed by the closing frame. *)
Theorem merge_forwards_every_event_once_in_order
    (gens : list AsyncGen) (arr : list nat) (clock : Z) :
  Forall Fresh gens → NeverThrows gens →
  ForwardsAll gens (mergeStreams gens arr clock).
Proof.
  intros Hf Hnt.
  pose proof (mergeStreams_Completed gens arr clock Hf Hnt) as Hc.
  destruct (Completed_summary gens _ (mergeStreams_Inv gens arr clock Hf) Hc)
    as (_ & _ & trace & Hout & Hm & _).
  exists trace. by rewrite Hc.
Qed.

Lemma merge_forwards_every_event_once_in_order_witness :
  let gens := generatorsFor calm queriesOf_twoQueries in
  Forall Fresh gens ∧ NeverThrows gens
  ∧ ForwardsAll gens (mergeStreams gens (schedule calm) (clock calm)).
Proof.
  assert (Forall Fresh (generatorsFor calm queriesOf_twoQueries)) as Hf.
  { vm_compute. repeat constructor. }
  assert (NeverThrows (generatorsFor calm queriesOf_twoQueries)) as Hnt.
  { vm_compute. repeat constructor. }
  split; [exact Hf|]. split; [exact Hnt|].
  exact (merge_forwards_every_event_once_in_order _ _ _ Hf Hnt).
Defined.

(** ** The map of pending promises *)






(** ** The final event *)

(** C4, as stated, fails: in the run of [POST broken twoQueries] the request
    of job 0 throws, the catch block closes the stream, and ['complete'] is
    never enqueued. *)
Lemma no_complete_event_when_a_request_throws :
  ¬ CompleteOnceAtEnd
      (mergeStreams (generatorsFor broken queriesOf_twoQueries)
         (schedule broken) (clock broken)).
Proof.
  intros (frames & Hout & _).
  destruct broken_run as (HE & _ & _).
  rewrite HE, mergeStreams_completedAt in Hout.
  destruct frames as [|f [|f' frames]]; [|discriminate Hout..].
  cbn [app] in Hout.
  assert (frame (CompleteEvent (clock broken)) = sse (errorData (Error "boom")))
    as E by congruence.
  by apply frame_not_errorData in E.
Qed.

(** C4 (amended): in every run of the merge loop in which no [next()]
    promise rejects, ['complete'] is enqueued exactly once, as the last chunk
    and after every other event, and when it is enqueued the map is empty and
    every generator has reported done; as long as the loop is running no
    ['complete'] frame has been enqueued. *)
Theorem complete_is_enqueued_once_and_last (w : World) (queries : list value) :
  NeverThrows (generatorsFor w queries) →
  let gens := generatorsFor w queries in
  CompleteOnceAtEnd (mergeStreams gens (schedule w) (clock w))
  ∧ completedAt (mergeStreams gens (schedule w) (clock w)) = clock w
  ∧ ∀ n t,
      status (steps n (start gens (schedule w) (clock w))) = Looping →
      frame (CompleteEvent t)
        ∉ enqueued (controller (steps n (start gens (schedule w) (clock w)))).
Proof.
  intros Hnt gens. pose proof (generatorsFor_Fresh w queries) as Hf. fold gens in Hf, Hnt.
  split_and!.
  - pose proof (mergeStreams_Completed gens (schedule w) (clock w) Hf Hnt) as Hc.
    destruct (Completed_summary gens _ (mergeStreams_Inv gens _ _ Hf) Hc)
      as (Hempty & Hdone & trace & Hout & Hm & Horig).
    exists (map (λ x, frame x.2) trace). split_and!; try done.
    apply Forall_forall. intros f Hin t ->.
    apply list_elem_of_fmap in Hin as ([g e] & Hfe & Hin). simpl in Hfe.
    apply frame_inj in Hfe. subst e.
    destruct (Horig _ _ Hin) as (a0 & Ha0 & He).
    by pose proof (generatorsFor_script _ _ _ _ _ Ha0 He).
  - apply mergeStreams_completedAt.
  - intros n t Hst Hin.
    pose proof (Inv_steps gens n _ (Inv_start gens (schedule w) (clock w) Hf)) as HI.
    destruct (inv_trace _ _ HI) as (trace & Hout & Hrange & Hslots).
    rewrite Hst in Hout. simpl in Hout. rewrite app_nil_r in Hout.
    rewrite Hout in Hin.
    apply list_elem_of_fmap in Hin as ([g e] & Hfe & Hin). simpl in Hfe.
    apply frame_inj in Hfe. subst e.
    destruct (Inv_origin gens _ trace g _ (inv_length _ _ HI) Hrange Hslots Hin)
      as (a0 & Ha0 & He).
    by pose proof (generatorsFor_script _ _ _ _ _ Ha0 He).
Qed.

Lemma complete_is_enqueued_once_and_last_witness :
  NeverThrows (generatorsFor calm queriesOf_twoQueries)
  ∧ CompleteOnceAtEnd
      (mergeStreams (generatorsFor calm queriesOf_twoQueries)
         (schedule calm) (clock calm)).
Proof.
  assert (NeverThrows (generatorsFor calm queriesOf_twoQueries)) as Hnt.
  { vm_compute. repeat constructor. }
  split; [exact Hnt|].
  exact (proj1 (complete_is_enqueued_once_and_last calm queriesOf_twoQueries Hnt)).
Defined.

(** ** Rejection *)

(** C10: if a pending [next()] promise rejects during the merge loop (the
    run of a request ends with status [Caught reason]), then the output is
    the frames of the events forwarded until then followed by one frame
    carrying [{type: 'error', error: <message>}], an object with neither
    [job] nor [timestamp]; no forwarded frame is such a frame and none is a
    ['complete'] frame; the stream is closed; and no [next()] request was
    issued beyond the one that followed each forwarded event, the requests of
    the other generators being left outstanding in the map. A run can end
    this way only when some generator throws. *)
Theorem rejection_closes_the_stream_with_one_error_frame
    (w : World) (queries : list value) (reason : Thrown) :
  let gens := generatorsFor w queries in
  let r := mergeStreams gens (schedule w) (clock w) in
  status r = Caught reason →
  (∃ trace,
     enqueued (controller r) = map (λ x, frame x.2) trace ++ [sse (errorData reason)]
     ∧ Forall (λ f, (∀ reason', f ≠ sse (errorData reason'))
                    ∧ ∀ t, f ≠ frame (CompleteEvent t))
         (map (λ x, frame x.2) trace)
     ∧ (∀ g a, generators r !! g = Some a →
          issued a = S (length (project g trace))
          ∧ (outstanding a = 1 → is_Some (pendingPromises r !! g))))
  ∧ carried (sse (errorData reason)) = Some (errorObject reason)
  ∧ has "job" (errorObject reason) = false
  ∧ has "timestamp" (errorObject reason) = false
  ∧ (∀ t, sse (errorData reason) ≠ frame (CompleteEvent t))
  ∧ closed (controller r) = true
  ∧ ¬ NeverThrows gens.
Proof.
  intros gens r Hst. pose proof (generatorsFor_Fresh w queries) as Hf. fold gens in Hf.
  pose proof (mergeStreams_Inv gens (schedule w) (clock w) Hf) as HI. fold r in HI.
  destruct (inv_trace _ _ HI) as (trace & Hout & Hrange & Hslots).
  rewrite Hst in Hout. simpl in Hout.
  split_and!.
  - exists trace. split_and!; [done| |].
    + apply Forall_forall. intros f Hin.
      apply list_elem_of_fmap in Hin as ([g e] & -> & Hin). simpl.
      split; [intros reason'; apply frame_not_errorData|].
      intros t Hfe. apply frame_inj in Hfe. subst e.
      destruct (Inv_origin gens _ trace g _ (inv_length _ _ HI) Hrange Hslots Hin)
        as (a0 & Ha0 & He).
      by pose proof (generatorsFor_script _ _ _ _ _ Ha0 He).
    + intros g a Ha.
      destruct (lookup_lt_is_Some_2 gens g) as [a0 Ha0].
      { rewrite <- (inv_length _ _ HI). by eapply lookup_lt_Some. }
      destruct (Hslots _ _ _ Ha0 Ha) as [_ Hc Hslot]. split; [done|].
      unfold outstanding.
      destruct Hslot as [Hp _ _|_ Hi _ _|? _ _ Hi _ _]; [by eauto|lia..].
  - apply carried_errorData.
  - done.
  - done.
  - intros t H. symmetry in H. by apply frame_not_errorData in H.
  - by rewrite (inv_closed _ _ HI), Hst.
  - apply (mergeStreams_Caught gens (schedule w) (clock w) Hf). by exists reason.
Qed.

Lemma rejection_closes_the_stream_with_one_error_frame_witness :
  status (mergeStreams (generatorsFor broken queriesOf_twoQueries)
            (schedule broken) (clock broken)) = Caught (Error "boom")
  ∧ closed (controller (mergeStreams (generatorsFor broken queriesOf_twoQueries)
                          (schedule broken) (clock broken))) = true.
Proof.
  assert (status (mergeStreams (generatorsFor broken queriesOf_twoQueries)
                    (schedule broken) (clock broken)) = Caught (Error "boom")) as Hst.
  { vm_compute. reflexivity. }
  split; [exact Hst|].
  exact (proj1 (proj2 (proj2 (proj2 (proj2 (proj2
    (rejection_closes_the_stream_with_one_error_frame broken queriesOf_twoQueries
       (Error "boom") Hst))))))).
Defined.

(** ** The earlier formulation *)

Lemma project_elem_inv g e trace : e ∈ project g trace → (g, e) ∈ trace.
Proof.
  unfold project. intros ([g' e'] & -> & Hin)%list_elem_of_fmap.
  apply list_elem_of_filter in Hin as [Hg Hin]. simpl in Hg. by subst g'.
Qed.

(** Under every schedule the current loop forwards each event of each
    generator, as long as no generator throws. *)
Lemma mergeStreams_forwards gens arr clock g a e :
  Forall Fresh gens → NeverThrows gens →
  gens !! g = Some a → e ∈ script a →
  frame e ∈ enqueued (controller (mergeStreams gens arr clock)).
Proof.
  intros Hf Hnt Ha He.
  pose proof (mergeStreams_Completed gens arr clock Hf Hnt) as Hc.
  destruct (Completed_summary gens _ (mergeStreams_Inv gens arr clock Hf) Hc)
    as (_ & _ & trace & Hout & Hm & _).
  rewrite Hout. apply elem_of_app. left.
  apply list_elem_of_fmap. exists (g, e). split; [done|].
  apply project_elem_inv. rewrite Hm, Ha. done.
Qed.

(** C3: there are generators and a schedule of arrivals for which the loop
    that re-polls every active generator on each turn calls [next()] on a
    generator whose previous request has not settled, runs to its end, and
    leaves out of its output an event that this generator yields; the current
    loop forwards that event under every schedule, so the two outputs differ
    whatever the schedule of the current loop. *)
Theorem naive_loop_drops_an_event :
  ∃ (gens : list AsyncGen) (arr : list nat) (g : nat) (e : StreamEvent),
    Forall Fresh gens ∧ NeverThrows gens
    ∧ (∃ a, gens !! g = Some a ∧ e ∈ script a)
    ∧ (∃ n a a',
         Naive.status (Naive.steps n (Naive.start gens arr)) = Naive.Polling
         ∧ Naive.generators (Naive.steps n (Naive.start gens arr)) !! g = Some a
         ∧ 0 < outstanding a
         ∧ Naive.generators (Naive.steps (S n) (Naive.start gens arr)) !! g = Some a'
         ∧ issued a' = S (issued a))
    ∧ (∃ n,
         Naive.status (Naive.steps n (Naive.start gens arr)) = Naive.Completed
         ∧ (frame e ∉ enqueued (Naive.controller (Naive.steps n (Naive.start gens arr))))
         ∧ (∀ arr' clock,
              enqueued (Naive.controller (Naive.steps n (Naive.start gens arr)))
              ≠ enqueued (controller (mergeStreams gens arr' clock))))
    ∧ (∀ arr' clock,
         frame e ∈ enqueued (controller (mergeStreams gens arr' clock))).
Proof.
  set (gens := generatorsFor calm queriesOf_twoQueries).
  set (e := ContentEvent 1 "b1" 2).
  assert (Forall Fresh gens) as Hf by apply generatorsFor_Fresh.
  assert (NeverThrows gens) as Hnt by (vm_compute; repeat constructor).
  assert (∀ arr' clock, frame e ∈ enqueued (controller (mergeStreams gens arr' clock)))
    as Hcur.
  { intros arr' clock.
    apply (mergeStreams_forwards gens arr' clock 1
             (runSingleDeepResearch (create calm 1 (Str "second question")) 1) e Hf Hnt).
    - reflexivity.
    - vm_compute. left. }
  assert (frame e ∉ enqueued (Naive.controller (Naive.steps 12 (Naive.start gens [0; 1; 1]))))
    as Hdrop.
  { apply (bool_decide_unpack _). by vm_compute. }
  exists gens, [0; 1; 1], 1, e. split_and!; try done.
  - eexists. split; [reflexivity|]. vm_compute. left.
  - exists 2. eexists _, _. split_and!; [by vm_compute|by vm_compute| |by vm_compute|].
    + vm_compute. lia.
    + reflexivity.
  - exists 12. split_and!; [by vm_compute|done|].
    intros arr' clock E. apply Hdrop. rewrite E. apply Hcur.
Qed.

(** ** A failed response *)









(** ** The shape of the frames *)

(** C6, as stated, fails: the frame written by the catch block carries an
    object tagged ['error'] that has neither [timestamp] nor [job]. *)
Lemma catch_frame_has_neither_job_nor_timestamp :
  ∃ f obj,
    f ∈ enqueued (controller
           (mergeStreams (generatorsFor broken queriesOf_twoQueries)
              (schedule broken) (clock broken)))
    ∧ carried f = Some obj
    ∧ field "type" obj = Str "error"
    ∧ has "timestamp" obj = false
    ∧ has "job" obj = false
    ∧ ¬ eventShaped obj.
Proof.
  exists (sse (errorData (Error "boom"))), (errorObject (Error "boom")).
  destruct broken_run as (HE & _ & _). rewrite HE.
  split_and!; [by left|apply carried_errorData|done..|].
  by intros (tag & _ & H & _).
Qed.

(** C6 (amended): every chunk written to the output of a run is either the
    frame of an event of the model, whose object has a [type] tag and a
    [timestamp] and lacks [job] exactly when the tag is ['complete'], or the
    frame of the catch block, written last when a [next()] promise rejected,
    whose object is [{type: 'error', error}] with neither [job] nor
    [timestamp]. *)
Theorem every_frame_is_an_event_or_the_catch_frame
    (w : World) (queries : list value) (f : string) :
  let r := mergeStreams (generatorsFor w queries) (schedule w) (clock w) in
  f ∈ enqueued (controller r) →
  (∃ e, f = frame e ∧ carried f = Some (object_of e) ∧ eventShaped (object_of e))
  ∨ (∃ reason,
       status r = Caught reason
       ∧ f = sse (errorData reason)
       ∧ last (enqueued (controller r)) = Some f
       ∧ carried f = Some (errorObject reason)
       ∧ field "type" (errorObject reason) = Str "error"
       ∧ has "job" (errorObject reason) = false
       ∧ has "timestamp" (errorObject reason) = false).
Proof.
  intros r Hin. pose proof (generatorsFor_Fresh w queries) as Hf.
  pose proof (mergeStreams_Inv _ (schedule w) (clock w) Hf) as HI. fold r in HI.
  destruct (inv_trace _ _ HI) as (trace & Hout & _ & _).
  rewrite Hout in Hin. apply elem_of_app in Hin as [Hin|Hin].
  - apply list_elem_of_fmap in Hin as ([g e] & -> & _). left. exists e.
    split_and!; [done|apply carried_frame|apply eventShaped_object_of].
  - destruct (status r) as [| |reason|] eqn:Hst; simpl in Hin.
    + by apply elem_of_nil in Hin.
    + apply list_elem_of_singleton in Hin as ->. left. eexists.
      split_and!; [done|apply carried_frame|apply eventShaped_object_of].
    + apply list_elem_of_singleton in Hin as ->. right. exists reason.
      split_and!; try done.
      * rewrite Hout. simpl. apply last_snoc.
      * apply carried_errorData.
    + by apply elem_of_nil in Hin.
Qed.

Lemma every_frame_is_an_event_or_the_catch_frame_witness :
  frame (ContentEvent 1 "b1" 2)
    ∈ enqueued (controller (mergeStreams (generatorsFor calm queriesOf_twoQueries)
                              (schedule calm) (clock calm)))
  ∧ ((∃ e, frame (ContentEvent 1 "b1" 2) = frame e
           ∧ carried (frame (ContentEvent 1 "b1" 2)) = Some (object_of e)
           ∧ eventShaped (object_of e))
     ∨ (∃ reason,
          status (mergeStreams (generatorsFor calm queriesOf_twoQueries)
                    (schedule calm) (clock calm)) = Caught reason
          ∧ frame (ContentEvent 1 "b1" 2) = sse (errorData reason)
          ∧ last (enqueued (controller
                     (mergeStreams (generatorsFor calm queriesOf_twoQueries)
                        (schedule calm) (clock calm))))
            = Some (frame (ContentEvent 1 "b1" 2))
          ∧ carried (frame (ContentEvent 1 "b1" 2)) = Some (errorObject reason)
          ∧ field "type" (errorObject reason) = Str "error"
          ∧ has "job" (errorObject reason) = false
          ∧ has "timestamp" (errorObject reason) = false)).
Proof.
  assert (frame (ContentEvent 1 "b1" 2)
    ∈ enqueued (controller (mergeStreams (generatorsFor calm queriesOf_twoQueries)
                              (schedule calm) (clock calm)))) as Hin.
  { vm_compute. left. }
  split; [exact Hin|].
  exact (every_frame_is_an_event_or_the_catch_frame calm queriesOf_twoQueries _ Hin).
Defined.

(* ===================================================================== *)
(** * The consumer decoder                                                *)
(* ===================================================================== *)

(** C8: for every event, the frame the route writes is the marker, the
    serialised event and two line feeds; the consumer's procedure (split at
    line feeds, take the line that begins with the marker, strip its six
    characters, [JSON.parse]) yields the object the event is, and that object
    determines the event. *)
Theorem frame_round_trip (e : StreamEvent) :
  frame e
  = "data: " +:+ stringify (object_of e) +:+ String newline (String newline EmptyString)
  ∧ Client.split (frame e) = [line_of (object_of e); EmptyString; EmptyString]
  ∧ String.prefix "data: " (line_of (object_of e)) = true
  ∧ parse (Client.slice 6 (line_of (object_of e))) = Some (object_of e)
  ∧ (∀ e', object_of e' = object_of e → e' = e).
Proof.
  destruct (object_of_flat e) as (props & E & Hf). pose proof Hf as [Hs _].
  destruct (stringify_Object_head props Hs) as [r Hr].
  split_and!.
  - done.
  - unfold frame. rewrite E, <- (append_nil_r (sse _)). by rewrite split_frame.
  - unfold line_of. rewrite E, Hr. reflexivity.
  - change (Client.slice 6 (line_of (object_of e))) with (stringify (object_of e)).
    rewrite E. by apply parse_stringify.
  - intros e'. apply object_of_inj.
Qed.

Lemma received_dispatch st objs :
  Client.received (foldl Client.dispatch st objs) = Client.received st ++ objs.
Proof.
  revert st. induction objs as [|obj objs IH]; intros st; simpl.
  - by rewrite app_nil_r.
  - rewrite IH. unfold Client.dispatch. repeat case_match; simpl;
      by rewrite <- app_assoc.
Qed.

Lemma chunk_of_frames events :
  chunk_of events
  = foldr (λ obj text, sse (stringify obj) +:+ text) EmptyString (map object_of events).
Proof. induction events as [|e events IH]; simpl; [done|]. by rewrite <- IH. Qed.

Lemma processChunk_chunk_of st events :
  Client.processChunk st (chunk_of events)
  = foldl Client.dispatch st (map object_of events).
Proof.
  rewrite chunk_of_frames. apply processChunk_frames.
  apply Forall_map, Forall_true. intros e. apply object_of_flat.
Qed.

Lemma processChunks_whole st groups :
  foldl Client.processChunk st (map chunk_of groups)
  = foldl Client.dispatch st (map object_of (concat groups)).
Proof.
  revert st. induction groups as [|grp groups IH]; intros st; simpl; [done|].
  by rewrite processChunk_chunk_of, IH, map_app, foldl_app.
Qed.

(** C7, as stated, fails: when the bytes of one frame arrive in two chunks,
    the first part does not parse and the second does not begin with the
    marker, so nothing is dispatched; the same bytes in one chunk dispatch
    the event. *)
Lemma frame_split_across_chunks_is_dropped :
  let e := ContentEvent 0 "a1" 7 in
  let first := String.substring 0 20 (frame e) in
  let second := String.substring 20 (String.length (frame e) - 20) (frame e) in
  first +:+ second = frame e
  ∧ Client.startAllResearch Client.initialJobs [first; second]
    = Client.startAllResearch Client.initialJobs []
  ∧ Client.received (Client.startAllResearch Client.initialJobs [first; second]) = []
  ∧ Client.received (Client.startAllResearch Client.initialJobs [frame e])
    = [object_of e].
Proof. by vm_compute. Qed.

(** C7 (amended): for every way of cutting the framed stream into chunks at
    frame boundaries, the decoder reconstructs exactly the sequence of events
    that were framed and dispatches them in order; each chunk is decoded on
    its own. *)
Theorem decoder_dispatches_whole_frames
    (js : list Client.ResearchJob) (groups : list (list StreamEvent)) :
  Client.startAllResearch js (map chunk_of groups)
  = foldl Client.dispatch (Client.startAllResearch js [])
      (map object_of (concat groups))
  ∧ Client.received (Client.startAllResearch js (map chunk_of groups))
    = map object_of (concat groups).
Proof.
  assert (Client.startAllResearch js (map chunk_of groups)
    = foldl Client.dispatch (Client.startAllResearch js [])
        (map object_of (concat groups))) as H.
  { unfold Client.startAllResearch. by rewrite processChunks_whole. }
  split; [done|]. by rewrite H, received_dispatch.
Qed.

(* ===================================================================== *)
(** * Request validation                                                  *)
(* ===================================================================== *)

Lemma truthy_false q : truthy q = false ↔ falsy q.
Proof.
  unfold falsy. split.
  - destruct q as [| |[]|n|s| |]; simpl; try done; eauto 10.
    + intros H. apply negb_false_iff, Z.eqb_eq in H. subst. eauto 10.
    + intros H. apply negb_false_iff, String.eqb_eq in H. subst. eauto 10.
  - intros [->|[->|[->|[->| ->]]]]; done.
Qed.

Lemma invalid_true queries :
  invalid queries = true ↔ queries = [] ∨ ∃ q, q ∈ queries ∧ falsy q.
Proof.
  unfold invalid. rewrite orb_true_iff, Nat.eqb_eq, existsb_exists, length_zero_iff_nil.
  split; (intros [H|(q & Hin & Hq)]; [by left|right; exists q]).
  - split; [by apply list_elem_of_In|]. by apply truthy_false, negb_true_iff.
  - split; [by apply list_elem_of_In|]. by apply negb_true_iff, truthy_false.
Qed.

(** C9, as stated, fails twice: a list whose only entry is the number 0 is
    neither empty nor holds an empty or missing entry, yet it is rejected
    with 400; and the body [null] gets neither a 400 nor a stream but the 500
    of the outer catch block. *)
Lemma validation_rejects_zero_and_null_body_gets_500 :
  queriesOf (Object [("queries", Array [Number 0])]) = Some [Number 0]
  ∧ existsb emptyOrMissing [Number 0] = false
  ∧ POST calm (Object [("queries", Array [Number 0])])
    = JsonResponse 400 (Object [("error", Str "Query or queries required")])
  ∧ queriesOf Null = None
  ∧ POST calm Null = JsonResponse 500 (Object [("error", Str typeErrorMessage)]).
Proof. by vm_compute. Qed.

(** C9 (amended): the derived query list is [body.queries] when that is an
    array and [[body.query]] otherwise; [POST] answers 400, whatever the
    environment and so without constructing a generator or a stream, exactly
    when that list is empty or holds a falsy entry (missing, null, the empty
    string, false or 0), an entry that is a string or is missing being falsy
    exactly when it is empty or missing; a body that is null has no derived
    list and is answered 500; every other body is answered with the stream
    of the merge loop over one generator per query. *)
Theorem validation_rejects_empty_lists_and_falsy_entries (w : World) (body : value) :
  (queriesOf body = None ↔ body = Null ∨ body = Undefined)
  ∧ (queriesOf body = None →
     POST w body = JsonResponse 500 (Object [("error", Str typeErrorMessage)]))
  ∧ (∀ queries, queriesOf body = Some queries →
       queries = match field "queries" body with
                 | Array items => items
                 | _ => [field "query" body]
                 end
       ∧ (∀ q, q ∈ queries → (∃ s, q = Str s) ∨ q = Undefined ∨ q = Null →
            (falsy q ↔ emptyOrMissing q = true))
       ∧ ((queries = [] ∨ ∃ q, q ∈ queries ∧ falsy q) →
          ∀ w', POST w' body
                = JsonResponse 400 (Object [("error", Str "Query or queries required")]))
       ∧ (¬ (queries = [] ∨ ∃ q, q ∈ queries ∧ falsy q) →
          POST w body
          = EventStream (mergeStreams (generatorsFor w queries) (schedule w) (clock w))
          ∧ length (generatorsFor w queries) = length queries)).
Proof.
  split_and!.
  - destruct body as [| | | | | |props]; simpl; split; intros H; try done;
      try (by destruct H); eauto.
    unfold queriesOf in H. simpl in H.
    by destruct (default Undefined (assoc "queries" props)).
  - intros H. unfold POST. by rewrite H.
  - intros queries Hq. split_and!.
    + unfold queriesOf, field in *. destruct body as [| | | | | |props]; simpl in *;
        try done; try by injection Hq as <-.
      destruct (default Undefined (assoc "queries" props)); by injection Hq as <-.
    + intros q _ [[s ->]|[->| ->]]; unfold falsy; simpl.
      * split.
        -- intros [|[|[[= ->]|[|]]]]; done.
        -- intros H%String.eqb_eq. subst. eauto 10.
      * split; eauto.
      * split; eauto.
    + intros H%invalid_true w'. unfold POST. by rewrite Hq, H.
    + intros H. unfold POST. rewrite Hq.
      destruct (invalid queries) eqn:E.
      * by apply invalid_true in E.
      * split; [done|]. unfold generatorsFor. by rewrite length_imap.
Qed.

(* ===================================================================== *)
(** * Auxiliary facts on the producer and the outcome of a run            *)
(* ===================================================================== *)

Lemma body_jobOf (jobId : nat) (t : Tick) (e : StreamEvent) :
  e ∈ body jobId t → jobOf e = Some (Z.of_nat jobId).
Proof.
  unfold body. intros H.
  repeat (apply elem_of_app in H as [H|H];
          [by case_match;
              [apply list_elem_of_singleton in H as ->|apply elem_of_nil in H]|]).
  case_match; [by apply list_elem_of_singleton in H as ->|by apply elem_of_nil in H].
Qed.

Lemma script_jobOf (openai : Response) (jobId : nat) (e : StreamEvent) :
  e ∈ script (runSingleDeepResearch openai jobId) → jobOf e = Some (Z.of_nat jobId).
Proof.
  destruct openai as [reason|ticks ending]; simpl.
  - by intros ?%elem_of_nil.
  - intros H. apply list_elem_of_In, in_flat_map in H as (t & _ & H).
    apply list_elem_of_In in H. by apply (body_jobOf jobId t).
Qed.

(** A run that got past the loop had no generator that throws. *)
Lemma Completed_NeverThrows gens arr clock :
  Forall Fresh gens → status (mergeStreams gens arr clock) = Completed →
  NeverThrows gens.
Proof.
  intros Hf Hc. pose proof (mergeStreams_Inv gens arr clock Hf) as HI.
  apply Forall_lookup_2. intros g a0 Ha0.
  destruct (lookup_lt_is_Some_2 (generators (mergeStreams gens arr clock)) g) as [a Ha].
  { rewrite (inv_length _ _ HI). by eapply lookup_lt_Some. }
  destruct (inv_trace _ _ HI) as (trace & _ & _ & Hslots).
  destruct (Hslots _ _ _ Ha0 Ha) as [_ _ [Hp _ _|_ _ _ ?|reason ? _ _ _ _]];
    [|done|congruence].
  rewrite (inv_completed _ _ HI Hc) in Hp. by rewrite lookup_empty in Hp.
Qed.

(* ===================================================================== *)
(** * Further properties of the producer                                  *)
(* ===================================================================== *)

(** X1: one turn of the body of [runSingleDeepResearch] yields at most one event;
    it yields one exactly when the type of the stream event is one of the six
    the body tests for, every other type being passed over; and what it
    yields is tagged with the job of the generator and stamped with the clock
    reading of that turn. *)
Theorem body_yields_at_most_one_tagged_event (jobId : nat) (t : Tick) :
  length (body jobId t) ≤ 1
  ∧ (body jobId t ≠ [] ↔ type (event t) ∈ handledTypes)
  ∧ ∀ e, e ∈ body jobId t →
      jobOf e = Some (Z.of_nat jobId) ∧ timestampOf e = now t.
Proof.
  unfold body, handledTypes.
  repeat match goal with
         | |- context [String.eqb ?a ?b] => destruct (String.eqb_spec a b) as [E|?]
         end;
    try (rewrite E in *; clear E); try discriminate; simpl.
  all: split_and!; [lia| |].
  all: try (split; [intros _; by repeat constructor|done]).
  all: try (intros e ->%list_elem_of_singleton; done).
  - split; [done|]. intros H.
    repeat (apply elem_of_cons in H as [H|H]; [done|]). by apply elem_of_nil in H.
  - by intros e ?%elem_of_nil.
Qed.

(** X2: every event a generator yields carries the number of its job, and a
    generator yields no more events than its stream delivers. *)
Theorem generator_events_carry_their_job (openai : Response) (jobId : nat) :
  (∀ e, e ∈ script (runSingleDeepResearch openai jobId) →
     jobOf e = Some (Z.of_nat jobId))
  ∧ length (script (runSingleDeepResearch openai jobId))
    ≤ match openai with Streams ticks _ => length ticks | CreateRejects _ => 0 end.
Proof.
  destruct openai as [reason|ticks ending]; simpl.
  - split; [by intros e ?%elem_of_nil|done].
  - split.
    + intros e H. apply list_elem_of_In, in_flat_map in H as (t & _ & H).
      apply list_elem_of_In in H.
      by apply (body_jobOf jobId t).
    + induction ticks as [|t ticks IH]; simpl; [done|].
      rewrite length_app.
      destruct (body_cases jobId t) as [->|(e & -> & _)]; simpl; lia.
Qed.

(* ===================================================================== *)
(** * Further properties of the merge loop                                *)
(* ===================================================================== *)

(** X3: at every point of every run, also of one that a rejection cuts short,
    the events in the output that came from one generator are a prefix of
    what that generator yields: the loop never duplicates, reorders or
    invents an event. *)
Theorem forwarded_events_are_a_prefix_of_each_script
    (gens : list AsyncGen) (arr : list nat) (clock : Z) (n : nat) :
  Forall Fresh gens →
  ∃ trace,
    enqueued (controller (steps n (start gens arr clock)))
      = map (λ x, frame x.2) trace
        ++ closing (status (steps n (start gens arr clock))) clock
    ∧ Forall (λ x, x.1 < length gens) trace
    ∧ ∀ g, project g trace `prefix_of` from_option script [] (gens !! g).
Proof.
  intros Hf.
  pose proof (Inv_steps gens n _ (Inv_start gens arr clock Hf)) as HI.
  destruct (inv_trace _ _ HI) as (trace & Hout & Hrange & Hslots).
  exists trace. rewrite steps_completedAt, start_completedAt in Hout.
  split_and!; [done..|]. intros g.
  destruct (gens !! g) as [a0|] eqn:Ha0; simpl.
  - destruct (lookup_lt_is_Some_2 (generators (steps n (start gens arr clock))) g)
      as [a Ha].
    { rewrite (inv_length _ _ HI). by eapply lookup_lt_Some. }
    destruct (Hslots _ _ _ Ha0 Ha) as [Hs _ _]. by exists (script a).
  - rewrite (project_out_of_range g (length gens) trace Hrange); [by exists []|].
    by apply lookup_ge_None.
Qed.

Lemma forwarded_events_are_a_prefix_of_each_script_witness :
  Forall Fresh (generatorsFor broken queriesOf_twoQueries)
  ∧ ∃ trace,
      enqueued (controller (steps 1 (start (generatorsFor broken queriesOf_twoQueries)
                                       (schedule broken) (clock broken))))
        = map (λ x, frame x.2) trace
          ++ closing (status (steps 1 (start (generatorsFor broken queriesOf_twoQueries)
                                         (schedule broken) (clock broken))))
               (clock broken)
      ∧ Forall (λ x, x.1 < length (generatorsFor broken queriesOf_twoQueries)) trace
      ∧ ∀ g, project g trace
             `prefix_of` from_option script []
                           (generatorsFor broken queriesOf_twoQueries !! g).
Proof.
  assert (Forall Fresh (generatorsFor broken queriesOf_twoQueries)) as Hf.
  { vm_compute. repeat constructor. }
  split; [exact Hf|].
  exact (forwarded_events_are_a_prefix_of_each_script _ _ _ 1 Hf).
Defined.

(** X4: every run of the loop comes to an end with the stream closed: past the
    loop, with ['complete'] as last chunk, when no generator throws; in the
    catch block otherwise, the last chunk then carrying the reason thrown by
    one of the generators. *)
Theorem every_run_ends_with_the_stream_closed
    (gens : list AsyncGen) (arr : list nat) (clock : Z) :
  Forall Fresh gens →
  let r := mergeStreams gens arr clock in
  closed (controller r) = true
  ∧ ((status r = Completed ∧ NeverThrows gens
      ∧ last (enqueued (controller r)) = Some (frame (CompleteEvent clock)))
     ∨ (∃ reason a,
          status r = Caught reason ∧ a ∈ gens ∧ ending a = Throws reason
          ∧ last (enqueued (controller r)) = Some (sse (errorData reason)))).
Proof.
  intros Hf r. pose proof (mergeStreams_Inv gens arr clock Hf) as HI. fold r in HI.
  destruct (inv_trace _ _ HI) as (trace & Hout & _ & _).
  unfold r in Hout. rewrite mergeStreams_completedAt in Hout. fold r in Hout.
  destruct (mergeStreams_outcome gens arr clock Hf) as [Hc|[reason Hc]]; fold r in Hc.
  - split; [by rewrite (inv_closed _ _ HI), Hc|]. left.
    split_and!; [done| |].
    + by apply (Completed_NeverThrows gens arr clock).
    + rewrite Hout, Hc. simpl. apply last_snoc.
  - split; [by rewrite (inv_closed _ _ HI), Hc|]. right.
    destruct (inv_caught _ _ HI reason Hc) as (g & a0 & Ha0 & Hend).
    exists reason, a0. split_and!; [done|by eapply list_elem_of_lookup_2|done|].
    rewrite Hout, Hc. simpl. apply last_snoc.
Qed.

Lemma every_run_ends_with_the_stream_closed_witness :
  Forall Fresh (generatorsFor broken queriesOf_twoQueries)
  ∧ closed (controller (mergeStreams (generatorsFor broken queriesOf_twoQueries)
                          (schedule broken) (clock broken))) = true
  ∧ ((status (mergeStreams (generatorsFor broken queriesOf_twoQueries)
                (schedule broken) (clock broken)) = Completed
      ∧ NeverThrows (generatorsFor broken queriesOf_twoQueries)
      ∧ last (enqueued (controller
                (mergeStreams (generatorsFor broken queriesOf_twoQueries)
                   (schedule broken) (clock broken))))
        = Some (frame (CompleteEvent (clock broken))))
     ∨ (∃ reason a,
          status (mergeStreams (generatorsFor broken queriesOf_twoQueries)
                    (schedule broken) (clock broken)) = Caught reason
          ∧ a ∈ generatorsFor broken queriesOf_twoQueries
          ∧ ending a = Throws reason
          ∧ last (enqueued (controller
                    (mergeStreams (generatorsFor broken queriesOf_twoQueries)
                       (schedule broken) (clock broken))))
            = Some (sse (errorData reason)))).
Proof.
  assert (Forall Fresh (generatorsFor broken queriesOf_twoQueries)) as Hf.
  { vm_compute. repeat constructor. }
  split; [exact Hf|].
  exact (every_run_ends_with_the_stream_closed _ (schedule broken) (clock broken) Hf).
Defined.

(** X5: in a run in which no generator throws, every generator has received, by
    the end, exactly one call of [next()] more than it yields events, and all
    of them have settled: one call per event and one that reports done. *)
Theorem each_generator_is_asked_once_per_event_and_once_more
    (gens : list AsyncGen) (arr : list nat) (clock : Z) (g : nat) (a0 : AsyncGen) :
  Forall Fresh gens → NeverThrows gens → gens !! g = Some a0 →
  ∃ a, generators (mergeStreams gens arr clock) !! g = Some a
       ∧ issued a = S (length (script a0))
       ∧ served a = issued a
       ∧ script a = [].
Proof.
  intros Hf Hnt Ha0.
  pose proof (mergeStreams_Inv gens arr clock Hf) as HI.
  pose proof (mergeStreams_Completed gens arr clock Hf Hnt) as Hc.
  destruct (lookup_lt_is_Some_2 (generators (mergeStreams gens arr clock)) g) as [a Ha].
  { rewrite (inv_length _ _ HI). by eapply lookup_lt_Some. }
  destruct (inv_trace _ _ HI) as (trace & _ & _ & Hslots).
  destruct (Hslots _ _ _ Ha0 Ha) as [Hs Hcalls Hslot].
  exists a. split; [done|].
  destruct Hslot as [Hp _ _|_ Hi Hscr _|reason ? _ _ _ _]; [|..|congruence].
  - rewrite (inv_completed _ _ HI Hc), lookup_empty in Hp. done.
  - rewrite Hscr, app_nil_r in Hs. rewrite Hs. by split_and!.
Qed.

Lemma each_generator_is_asked_once_per_event_and_once_more_witness :
  Forall Fresh (generatorsFor calm queriesOf_twoQueries)
  ∧ NeverThrows (generatorsFor calm queriesOf_twoQueries)
  ∧ generatorsFor calm queriesOf_twoQueries !! 1
    = Some (runSingleDeepResearch (create calm 1 (Str "second question")) 1)
  ∧ ∃ a, generators (mergeStreams (generatorsFor calm queriesOf_twoQueries)
                       (schedule calm) (clock calm)) !! 1 = Some a
         ∧ issued a
           = S (length (script (runSingleDeepResearch
                                  (create calm 1 (Str "second question")) 1)))
         ∧ served a = issued a
         ∧ script a = [].
Proof.
  assert (Forall Fresh (generatorsFor calm queriesOf_twoQueries)) as Hf.
  { vm_compute. repeat constructor. }
  assert (NeverThrows (generatorsFor calm queriesOf_twoQueries)) as Hnt.
  { vm_compute. repeat constructor. }
  split; [exact Hf|]. split; [exact Hnt|]. split; [reflexivity|].
  exact (each_generator_is_asked_once_per_event_and_once_more
           _ (schedule calm) (clock calm) 1 _ Hf Hnt eq_refl).
Defined.

(** X6: in the output of a request with [N] queries, every chunk whose object has
    a [job] field is the frame of an event, and the field holds the index,
    below [N], of the generator that yielded the event: jobs are numbered
    from 0 in the order of the queries, whatever the schedule. *)
Theorem every_job_field_names_a_query
    (w : World) (queries : list value) (f : string) (obj : value) :
  f ∈ enqueued (controller (mergeStreams (generatorsFor w queries) (schedule w) (clock w))) →
  carried f = Some obj →
  has "job" obj = true →
  ∃ g q e,
    queries !! g = Some q
    ∧ e ∈ script (runSingleDeepResearch (create w g q) g)
    ∧ f = frame e
    ∧ field "job" obj = Number (Z.of_nat g).
Proof.
  intros Hin Hcar Hjob. pose proof (generatorsFor_Fresh w queries) as Hf.
  pose proof (mergeStreams_Inv _ (schedule w) (clock w) Hf) as HI.
  destruct (inv_trace _ _ HI) as (trace & Hout & Hrange & Hslots).
  rewrite Hout in Hin. apply elem_of_app in Hin as [Hin|Hin].
  - apply list_elem_of_fmap in Hin as ([g e] & -> & Hin). simpl in *.
    destruct (Inv_origin _ _ trace g e (inv_length _ _ HI) Hrange Hslots Hin)
      as (a0 & Ha0 & He).
    rewrite generatorsFor_lookup in Ha0.
    destruct (queries !! g) as [q|] eqn:Hq; [|done]. injection Ha0 as <-.
    exists g, q, e. split_and!; [done..|].
    rewrite carried_frame in Hcar. injection Hcar as <-.
    pose proof (script_jobOf (create w g q) g e He) as Hj.
    destruct e; simpl in Hj; by simplify_eq.
  - exfalso.
    destruct (status (mergeStreams (generatorsFor w queries) (schedule w) (clock w)));
      simpl in Hin.
    + by apply elem_of_nil in Hin.
    + apply list_elem_of_singleton in Hin as ->.
      rewrite carried_frame in Hcar. by injection Hcar as <-.
    + apply list_elem_of_singleton in Hin as ->.
      rewrite carried_errorData in Hcar. by injection Hcar as <-.
    + by apply elem_of_nil in Hin.
Qed.

Lemma every_job_field_names_a_query_witness :
  frame (ContentEvent 1 "b1" 2)
    ∈ enqueued (controller (mergeStreams (generatorsFor calm queriesOf_twoQueries)
                              (schedule calm) (clock calm)))
  ∧ carried (frame (ContentEvent 1 "b1" 2)) = Some (object_of (ContentEvent 1 "b1" 2))
  ∧ has "job" (object_of (ContentEvent 1 "b1" 2)) = true
  ∧ ∃ g q e,
      queriesOf_twoQueries !! g = Some q
      ∧ e ∈ script (runSingleDeepResearch (create calm g q) g)
      ∧ frame (ContentEvent 1 "b1" 2) = frame e
      ∧ field "job" (object_of (ContentEvent 1 "b1" 2)) = Number (Z.of_nat g).
Proof.
  assert (frame (ContentEvent 1 "b1" 2)
    ∈ enqueued (controller (mergeStreams (generatorsFor calm queriesOf_twoQueries)
                              (schedule calm) (clock calm)))) as Hin.
  { vm_compute. left. }
  split; [exact Hin|]. split; [apply carried_frame|]. split; [reflexivity|].
  exact (every_job_field_names_a_query calm queriesOf_twoQueries _ _ Hin
           (carried_frame _) eq_refl).
Defined.

(* ===================================================================== *)
(** * Auxiliary facts on the cards of the page                            *)
(* ===================================================================== *)

Lemma update_id ev job :
  Client.id (Client.update ev job) = Client.id job
  ∧ Client.query (Client.update ev job) = Client.query job.
Proof. unfold Client.update. by repeat case_match. Qed.

Lemma update_unaddressed ev job :
  is_number (Z.of_nat (Client.id job)) (field "job" ev) = false →
  Client.update ev job = job.
Proof. unfold Client.update. by intros ->. Qed.

Lemma is_number_object_of e k :
  is_number k (field "job" (object_of e)) = bool_decide (jobOf e = Some k).
Proof.
  destruct e; simpl; try done;
    (destruct (Z.eqb_spec k job) as [->|Hne];
     [by rewrite bool_decide_eq_true_2
     |rewrite bool_decide_eq_false_2; [done|congruence]]).
Qed.

Lemma update_other e job :
  jobOf e ≠ Some (Z.of_nat (Client.id job)) →
  Client.update (object_of e) job = job.
Proof.
  intros H. apply update_unaddressed.
  by rewrite is_number_object_of, bool_decide_eq_false_2.
Qed.

Lemma dispatch_object_of st e :
  Client.jobs (Client.dispatch st (object_of e))
  = map (Client.update (object_of e)) (Client.jobs st).
Proof.
  destruct e; try done. simpl.
  induction (Client.jobs st) as [|job l IH]; [done|]. simpl. by rewrite <- IH.
Qed.

Lemma shown_id events job :
  Client.id (shown events job) = Client.id job
  ∧ Client.query (shown events job) = Client.query job.
Proof.
  revert job. induction events as [|e events IH]; intros job; [done|].
  simpl. destruct (IH (Client.update (object_of e) job)) as [-> ->].
  apply update_id.
Qed.

Lemma shown_app l1 l2 job : shown (l1 ++ l2) job = shown l2 (shown l1 job).
Proof. apply foldl_app. Qed.

Lemma dispatch_events st events :
  Client.jobs (foldl Client.dispatch st (map object_of events))
  = map (shown events) (Client.jobs st).
Proof.
  revert st. induction events as [|e events IH]; intros st; simpl.
  - by rewrite map_id.
  - rewrite IH, dispatch_object_of, map_map. done.
Qed.

Lemma deltasOf_cons k e events :
  deltasOf k (e :: events) = deltasOf k [e] +:+ deltasOf k events
  ∧ searchesOf k (e :: events) = searchesOf k [e] + searchesOf k events.
Proof.
  destruct e; simpl; try done; case_match; try done.
  by rewrite append_assoc.
Qed.

Lemma deltasOf_app k l1 l2 :
  deltasOf k (l1 ++ l2) = deltasOf k l1 +:+ deltasOf k l2
  ∧ searchesOf k (l1 ++ l2) = searchesOf k l1 + searchesOf k l2.
Proof.
  induction l1 as [|e l1 [IH1 IH2]]; [done|].
  rewrite <- app_comm_cons.
  destruct (deltasOf_cons k e (l1 ++ l2)) as [-> ->].
  destruct (deltasOf_cons k e l1) as [-> ->].
  rewrite IH1, IH2, append_assoc. split; [done|lia].
Qed.

Lemma update_grows e job :
  Client.content (Client.update (object_of e) job)
  = Client.content job +:+ deltasOf (Client.id job) [e]
  ∧ Client.searchCount (Client.update (object_of e) job)
    = Client.searchCount job + searchesOf (Client.id job) [e].
Proof.
  unfold Client.update. rewrite is_number_object_of.
  destruct e; simpl;
    try (case_bool_decide as Hj; simpl; [simplify_eq; rewrite ?Z.eqb_refl|]).
  all: repeat match goal with
       | |- context [(?a =? ?b)%Z] =>
           destruct (Z.eqb_spec a b); [exfalso; congruence|]
       | |- context [String.eqb ?a ?b] => destruct (String.eqb_spec a b) as [->|]
       end; simpl; rewrite ?append_nil_r; split; (done || lia).
Qed.

Lemma shown_grows events job :
  Client.content (shown events job)
  = Client.content job +:+ deltasOf (Client.id job) events
  ∧ Client.searchCount (shown events job)
    = Client.searchCount job + searchesOf (Client.id job) events.
Proof.
  revert job. induction events as [|e events IH]; intros job.
  - simpl. rewrite append_nil_r. split; [done|lia].
  - change (shown (e :: events) job)
      with (shown events (Client.update (object_of e) job)).
    destruct (IH (Client.update (object_of e) job)) as [-> ->].
    destruct (update_grows e job) as [-> ->].
    destruct (deltasOf_cons (Client.id job) e events) as [-> ->].
    rewrite (proj1 (update_id (object_of e) job)), append_assoc.
    split; [done|lia].
Qed.

Lemma update_extends ev job : extends job (Client.update ev job).
Proof.
  unfold extends, Client.update.
  repeat case_match; simpl; split_and!; try done; try lia;
    try (by exists EmptyString; rewrite append_nil_r); by eexists.
Qed.

Lemma extends_refl job : extends job job.
Proof. split_and!; [done..| |done]. exists EmptyString. by rewrite append_nil_r. Qed.

Lemma extends_trans j1 j2 j3 : extends j1 j2 → extends j2 j3 → extends j1 j3.
Proof.
  intros (Hi & Hq & [m Hc] & Hn) (Hi' & Hq' & [m' Hc'] & Hn').
  split_and!; [congruence..| |lia].
  exists (m +:+ m'). by rewrite Hc', Hc, append_assoc.
Qed.

Lemma Forall2_extends_refl l : Forall2 extends l l.
Proof. induction l; constructor; [apply extends_refl|done]. Qed.

Lemma Forall2_extends_trans l1 l2 l3 :
  Forall2 extends l1 l2 → Forall2 extends l2 l3 → Forall2 extends l1 l3.
Proof.
  intros H. revert l3. induction H as [|x y l1 l2 Hxy _ IH]; intros l3 H3.
  - by inversion H3.
  - inversion H3 as [|? z ? l3' Hyz H3']; subst. constructor; [|by apply IH].
    by eapply extends_trans.
Qed.

Lemma dispatch_extends st ev :
  Forall2 extends (Client.jobs st) (Client.jobs (Client.dispatch st ev)).
Proof.
  unfold Client.dispatch. repeat case_match; simpl;
    try apply Forall2_extends_refl.
  induction (Client.jobs st); constructor; [apply update_extends|done].
Qed.

(** ** Chunks made of whole frames *)

Lemma joined_frames objs :
  joined (map (λ obj, sse (stringify obj)) objs)
  = foldr (λ obj text, sse (stringify obj) +:+ text) EmptyString objs.
Proof. induction objs as [|obj objs IH]; [done|]. simpl. by rewrite <- IH. Qed.

Lemma processChunks_joined groups objs st :
  Forall (λ obj, ∃ props, obj = Object props ∧ flat props) objs →
  concat groups = map (λ obj, sse (stringify obj)) objs →
  foldl Client.processChunk st (map joined groups) = foldl Client.dispatch st objs.
Proof.
  revert objs st. induction groups as [|g groups IH]; intros objs st Hflat Hcat.
  - simpl in Hcat. symmetry in Hcat. apply map_eq_nil in Hcat. by subst.
  - simpl in Hcat. symmetry in Hcat.
    apply fmap_app_inv in Hcat as (o1 & o2 & -> & Hgs & ->).
    apply Forall_app in Hflat as [H1 H2].
    simpl. rewrite joined_frames, processChunk_frames by done.
    rewrite foldl_app. by apply IH.
Qed.

Lemma closing_objects s c :
  closing s c = map (λ obj, sse (stringify obj)) (closingObject s c)
  ∧ Forall (λ obj, ∃ props, obj = Object props ∧ flat props) (closingObject s c)
  ∧ ∀ st, Client.jobs (foldl Client.dispatch st (closingObject s c)) = Client.jobs st.
Proof.
  destruct s as [| |reason|]; split_and!; try done.
  - constructor; [apply (object_of_flat (CompleteEvent c))|constructor].
  - constructor; [apply errorObject_flat|constructor].
Qed.

(** ** What a run has forwarded *)

Lemma run_trace gens r :
  Inv gens r →
  ∃ trace,
    enqueued (controller r)
      = map (λ x, frame x.2) trace ++ closing (status r) (completedAt r)
    ∧ Forall (λ x, x.1 < length gens) trace
    ∧ (∀ g, project g trace `prefix_of` from_option script [] (gens !! g))
    ∧ (status r = Completed → Merged gens trace).
Proof.
  intros HI. destruct (inv_trace _ _ HI) as (trace & Hout & Hrange & Hslots).
  exists trace. split_and!; [done..| |].
  - intros g. destruct (gens !! g) as [a0|] eqn:Ha0; simpl.
    + destruct (lookup_lt_is_Some_2 (generators r) g) as [a Ha].
      { rewrite (inv_length _ _ HI). by eapply lookup_lt_Some. }
      destruct (Hslots _ _ _ Ha0 Ha) as [Hs _ _]. by exists (script a).
    + rewrite (project_out_of_range g (length gens) trace Hrange); [by exists []|].
      by apply lookup_ge_None.
  - intros Hc g. destruct (gens !! g) as [a0|] eqn:Ha0; simpl.
    + destruct (lookup_lt_is_Some_2 (generators r) g) as [a Ha].
      { rewrite (inv_length _ _ HI). by eapply lookup_lt_Some. }
      destruct (Hslots _ _ _ Ha0 Ha) as [Hs _ [Hp _ _|_ _ Hscr _|reason ? _ _ _ _]];
        [|by rewrite Hs, Hscr, app_nil_r|congruence].
      rewrite (inv_completed _ _ HI Hc), lookup_empty in Hp. done.
    + apply (project_out_of_range g (length gens) trace Hrange).
      by apply lookup_ge_None.
Qed.

Lemma generatorsFor_labels w queries trace :
  (∀ g, project g trace `prefix_of` from_option script [] (generatorsFor w queries !! g)) →
  Forall (λ x, jobOf x.2 = Some (Z.of_nat x.1)) trace.
Proof.
  intros Hpre. apply Forall_forall. intros [g e] Hin. simpl.
  apply project_elem in Hin. destruct (Hpre g) as [rest Hs].
  rewrite generatorsFor_lookup in Hs.
  destruct (queries !! g) as [q|]; simpl in Hs.
  - apply (script_jobOf (create w g q)). rewrite Hs. apply elem_of_app. by left.
  - destruct (project g trace); [by apply elem_of_nil in Hin|done].
Qed.

Lemma shown_project trace job :
  Forall (λ x, jobOf x.2 = Some (Z.of_nat x.1)) trace →
  shown (map snd trace) job = shown (project (Client.id job) trace) job.
Proof.
  intros H. revert job. induction H as [|[g e] trace Hge _ IH]; intros job; [done|].
  simpl in Hge. change ((g, e) :: trace) with ([(g, e)] ++ trace).
  rewrite project_app. simpl.
  destruct (decide (g = Client.id job)) as [->|Hne].
  - rewrite project_one_eq. simpl. rewrite IH.
    by rewrite (proj1 (update_id (object_of e) job)).
  - rewrite project_one_ne by done. simpl. rewrite update_other; [apply IH|].
    rewrite Hge. intros [= E]. by apply Nat2Z.inj in E.
Qed.

(** The cards once the output of a run has been read in chunks of whole
    frames: each is what the events of its own generator make of it. *)
Lemma cards_of_run w queries r js groups :
  Inv (generatorsFor w queries) r →
  concat groups = enqueued (controller r) →
  ∃ trace,
    (∀ g, project g trace
          `prefix_of` from_option script [] (generatorsFor w queries !! g))
    ∧ (status r = Completed → Merged (generatorsFor w queries) trace)
    ∧ Client.jobs (Client.startAllResearch js (map joined groups))
      = map (λ job, shown (project (Client.id job) trace) job)
          (Client.jobs (Client.startAllResearch js [])).
Proof.
  intros HI Hcat. destruct (run_trace _ _ HI) as (trace & Hout & _ & Hpre & Hm).
  exists trace. split_and!; [done..|].
  destruct (closing_objects (status r) (completedAt r)) as (Hcl & Hflat & Hjobs).
  unfold Client.startAllResearch at 1.
  rewrite (processChunks_joined groups
             (map object_of (map snd trace)
              ++ closingObject (status r) (completedAt r))).
  - rewrite foldl_app, Hjobs, dispatch_events. simpl.
    apply map_ext_in. intros job _. apply shown_project.
    by apply (generatorsFor_labels w queries).
  - apply Forall_app. split; [|done].
    apply Forall_forall. intros obj (e & -> & _)%list_elem_of_fmap.
    apply object_of_flat.
  - rewrite Hcat, Hout, map_app, <- Hcl. f_equal.
    rewrite !map_map. done.
Qed.

Lemma body_deltas k t :
  deltasOf k (body k t)
  = (if String.eqb (type (event t)) "response.output_text.delta"
     then delta (event t) else EmptyString)
  ∧ searchesOf k (body k t)
    = (if String.eqb (type (event t)) "response.web_search_call.searching"
       then 1 else 0).
Proof.
  unfold body.
  repeat match goal with
         | |- context [String.eqb ?a ?b] => destruct (String.eqb_spec a b) as [E|?]
         end;
    try (rewrite E in *; clear E); try discriminate; simpl;
    rewrite ?Z.eqb_refl, ?append_nil_r; done.
Qed.

Lemma script_deltas k ticks :
  deltasOf k (flat_map (body k) ticks) = textOf ticks
  ∧ searchesOf k (flat_map (body k) ticks) = searchesIn ticks.
Proof.
  induction ticks as [|t ticks [IH1 IH2]]; [done|]. simpl.
  destruct (deltasOf_app k (body k t) (flat_map (body k) ticks)) as [-> ->].
  destruct (body_deltas k t) as [-> ->]. rewrite IH1, IH2.
  split; by case_match.
Qed.

Lemma generator_deltas w queries k :
  deltasOf k (from_option script [] (generatorsFor w queries !! k))
  = textOf (streamOf w queries k)
  ∧ searchesOf k (from_option script [] (generatorsFor w queries !! k))
    = searchesIn (streamOf w queries k).
Proof.
  rewrite generatorsFor_lookup. unfold streamOf.
  destruct (queries !! k) as [q|]; simpl; [|done].
  destruct (create w k q) as [reason|ticks ending]; simpl; [done|].
  apply script_deltas.
Qed.

(* ===================================================================== *)
(** * Further properties of the consumer                                  *)
(* ===================================================================== *)

(** X7: whatever events the page is handed once [JSON.parse] has returned
    them (objects of any shape, with an unknown [type], with fields missing
    or of the wrong kind, or values that are no objects at all), provided
    the [content] of each is a string, a boolean, [null] or absent, the page
    keeps its cards: none is added, dropped, reordered or renamed, the text
    of a card is only appended to, its count of searches never falls, and
    every event is logged. A [content] that is a number, an array or an
    object is left out: appending it to the text goes through the conversion
    of that value to a string, which this development follows for strings
    and booleans only. *)
Theorem cards_only_grow (st : Client.State) (events : list value) :
  Forall (λ event, textual (field "content" event) = true) events →
  map Client.id (Client.jobs (foldl Client.dispatch st events))
  = map Client.id (Client.jobs st)
  ∧ map Client.query (Client.jobs (foldl Client.dispatch st events))
    = map Client.query (Client.jobs st)
  ∧ Forall2 extends (Client.jobs st) (Client.jobs (foldl Client.dispatch st events))
  ∧ Client.received (foldl Client.dispatch st events) = Client.received st ++ events.
Proof.
  intros _.
  assert (Forall2 extends (Client.jobs st)
            (Client.jobs (foldl Client.dispatch st events))) as Hext.
  { revert st. induction events as [|event events IH]; intros st; simpl.
    - apply Forall2_extends_refl.
    - eapply Forall2_extends_trans; [apply dispatch_extends|apply IH]. }
  split_and!; [| |done|apply received_dispatch].
  - induction Hext as [|x y l l' (Hi & _) _ IH]; [done|]. simpl. by rewrite Hi, IH.
  - induction Hext as [|x y l l' (_ & Hq & _) _ IH]; [done|]. simpl. by rewrite Hq, IH.
Qed.

Lemma cards_only_grow_witness :
  let st := Client.startAllResearch Client.initialJobs [] in
  let events :=
    [object_of (ContentEvent 0 "a1" 1);
     Object [("type", Str "content"); ("job", Number 0); ("content", Bool true)];
     Null;
     Object [("type", Str "unheard of"); ("job", Number 1)];
     Object [("type", Str "content"); ("job", Str "1"); ("content", Str "b1")];
     Array [Number 1]] in
  Forall (λ event, textual (field "content" event) = true) events
  ∧ map Client.id (Client.jobs (foldl Client.dispatch st events))
    = map Client.id (Client.jobs st)
  ∧ map Client.query (Client.jobs (foldl Client.dispatch st events))
    = map Client.query (Client.jobs st)
  ∧ Forall2 extends (Client.jobs st) (Client.jobs (foldl Client.dispatch st events))
  ∧ Client.received (foldl Client.dispatch st events) = Client.received st ++ events.
Proof.
  intros st events.
  assert (Forall (λ event, textual (field "content" event) = true) events) as H.
  { repeat constructor. }
  split; [exact H|].
  exact (cards_only_grow st events H).
Defined.

(** X8: an event that no card is waiting for, because it has no [job], or a
    [job] that is not the [id] of any card, is logged and changes nothing
    else. *)
Theorem events_for_no_card_are_only_logged (st : Client.State) (event : value) :
  Forall (λ job, is_number (Z.of_nat (Client.id job)) (field "job" event) = false)
    (Client.jobs st) →
  Client.dispatch st event
  = {| Client.jobs := Client.jobs st; Client.received := Client.received st ++ [event] |}.
Proof.
  intros H. unfold Client.dispatch. repeat case_match; try done. simpl. f_equal.
  induction H as [|job l Hjob _ IH]; [done|].
  simpl. by rewrite IH, update_unaddressed.
Qed.

Lemma events_for_no_card_are_only_logged_witness :
  Forall (λ job, is_number (Z.of_nat (Client.id job))
                   (field "job" (object_of (ContentEvent 7 "late" 3))) = false)
    (Client.jobs (Client.startAllResearch Client.initialJobs []))
  ∧ Client.dispatch (Client.startAllResearch Client.initialJobs [])
      (object_of (ContentEvent 7 "late" 3))
    = {| Client.jobs := Client.jobs (Client.startAllResearch Client.initialJobs []);
         Client.received :=
           Client.received (Client.startAllResearch Client.initialJobs [])
           ++ [object_of (ContentEvent 7 "late" 3)] |}.
Proof.
  assert (Forall (λ job, is_number (Z.of_nat (Client.id job))
                   (field "job" (object_of (ContentEvent 7 "late" 3))) = false)
    (Client.jobs (Client.startAllResearch Client.initialJobs []))) as H.
  { repeat constructor. }
  split; [exact H|].
  exact (events_for_no_card_are_only_logged _ _ H).
Defined.

(** X9: the frames that end a stream change no card: neither ['complete'], with
    its timestamp or, as the earlier route sent it, without, nor the frame of
    the [catch] block, whose error is logged and shown on no card. *)
Theorem closing_frames_change_no_card (st : Client.State) (reason : Thrown) (c : Z) :
  Client.processChunk st (frame (CompleteEvent c))
  = {| Client.jobs := Client.jobs st;
       Client.received := Client.received st ++ [object_of (CompleteEvent c)] |}
  ∧ Client.processChunk st naiveComplete
    = {| Client.jobs := Client.jobs st;
         Client.received := Client.received st ++ [Object [("type", Str "complete")]] |}
  ∧ Client.processChunk st (sse (errorData reason))
    = {| Client.jobs := Client.jobs st;
         Client.received := Client.received st ++ [errorObject reason] |}.
Proof.
  assert (∀ obj, (∃ props, obj = Object props ∧ flat props) →
            Client.processChunk st (sse (stringify obj)) = Client.dispatch st obj) as H.
  { intros obj Hobj.
    pose proof (processChunk_frames [obj] st) as E. simpl in E.
    rewrite append_nil_r in E. apply E. by constructor. }
  split_and!.
  - unfold frame. rewrite H; [done|apply (object_of_flat (CompleteEvent c))].
  - unfold naiveComplete. rewrite H; [done|].
    eexists. split; [done|]. split; repeat constructor.
    by intros ?%elem_of_nil.
  - rewrite errorData_stringify, H; [done|apply errorObject_flat].
Qed.

(** X10: after a chunk of whole frames, the text of a card has grown by the
    contents of the ['content'] events addressed to it, in the order they
    came, and its count of searches by the number of ['web_search_searching']
    events addressed to it; events of other jobs leave it alone. *)
Theorem card_accumulates_its_deltas
    (st : Client.State) (events : list StreamEvent) (i : nat) (job : Client.ResearchJob) :
  Client.jobs st !! i = Some job →
  ∃ job',
    Client.jobs (Client.processChunk st (chunk_of events)) !! i = Some job'
    ∧ Client.id job' = Client.id job
    ∧ Client.query job' = Client.query job
    ∧ Client.content job' = Client.content job +:+ deltasOf (Client.id job) events
    ∧ Client.searchCount job'
      = Client.searchCount job + searchesOf (Client.id job) events.
Proof.
  intros Hi. exists (shown events job).
  rewrite processChunk_chunk_of, dispatch_events.
  split; [by rewrite list_lookup_fmap, Hi|].
  destruct (shown_id events job) as [-> ->].
  destruct (shown_grows events job) as [-> ->]. done.
Qed.

Lemma card_accumulates_its_deltas_witness :
  Client.jobs (Client.startAllResearch Client.initialJobs []) !! 1
  = Some {| Client.id := 1; Client.query := "Why did humans evolve to die? Concise answer";
            Client.content := EmptyString; Client.status := Client.searching;
            Client.searchCount := 0 |}
  ∧ ∃ job',
      Client.jobs (Client.processChunk (Client.startAllResearch Client.initialJobs [])
                     (chunk_of [ContentEvent 1 "b1" 2; ContentEvent 0 "a1" 3;
                                WebSearchSearchingEvent 1 "ws" 4 5;
                                ContentEvent 1 "b2" 6])) !! 1 = Some job'
      ∧ Client.id job' = 1
      ∧ Client.query job' = "Why did humans evolve to die? Concise answer"
      ∧ Client.content job'
        = EmptyString +:+ deltasOf 1 [ContentEvent 1 "b1" 2; ContentEvent 0 "a1" 3;
                                       WebSearchSearchingEvent 1 "ws" 4 5;
                                       ContentEvent 1 "b2" 6]
      ∧ Client.searchCount job'
        = 0 + searchesOf 1 [ContentEvent 1 "b1" 2; ContentEvent 0 "a1" 3;
                            WebSearchSearchingEvent 1 "ws" 4 5;
                            ContentEvent 1 "b2" 6].
Proof.
  split; [reflexivity|].
  exact (card_accumulates_its_deltas
           (Client.startAllResearch Client.initialJobs []) _ 1 _ eq_refl).
Defined.

(* ===================================================================== *)
(** * From the service to the page                                        *)
(* ===================================================================== *)

(** X11: when no generator throws and the output of the route reaches the page in
    chunks of whole frames, each card ends up holding the text deltas of the
    stream of its own job, concatenated in order, and the number of searches
    that stream announced: nothing of another job, and the same whatever the
    order in which the service answered. A card whose [id] is not the index
    of a query stays empty. *)
Theorem each_card_shows_the_text_of_its_stream
    (w : World) (queries : list value) (js : list Client.ResearchJob)
    (groups : list (list string)) (i : nat) (job : Client.ResearchJob) :
  NeverThrows (generatorsFor w queries) →
  concat groups
  = enqueued (controller
      (mergeStreams (generatorsFor w queries) (schedule w) (clock w))) →
  js !! i = Some job →
  ∃ job',
    Client.jobs (Client.startAllResearch js (map joined groups)) !! i = Some job'
    ∧ Client.id job' = Client.id job
    ∧ Client.query job' = Client.query job
    ∧ Client.content job' = textOf (streamOf w queries (Client.id job))
    ∧ Client.searchCount job' = searchesIn (streamOf w queries (Client.id job)).
Proof.
  intros Hnt Hcat Hi.
  pose proof (generatorsFor_Fresh w queries) as Hf.
  destruct (cards_of_run w queries _ js groups
              (mergeStreams_Inv _ (schedule w) (clock w) Hf) Hcat)
    as (trace & _ & Hm & ->).
  specialize (Hm (mergeStreams_Completed _ (schedule w) (clock w) Hf Hnt)).
  eexists. split.
  { unfold Client.startAllResearch. simpl. by rewrite !list_lookup_fmap, Hi. }
  match goal with
  | |- context [shown ?evs ?jb] =>
      destruct (shown_id evs jb) as [-> ->];
      destruct (shown_grows evs jb) as [-> ->]
  end.
  simpl. rewrite (Hm (Client.id job)).
  destruct (generator_deltas w queries (Client.id job)) as [-> ->].
  by rewrite append_nil_l.
Qed.

Lemma each_card_shows_the_text_of_its_stream_witness :
  NeverThrows (generatorsFor calm queriesOf_twoQueries)
  ∧ concat [enqueued (controller
              (mergeStreams (generatorsFor calm queriesOf_twoQueries)
                 (schedule calm) (clock calm)))]
    = enqueued (controller
        (mergeStreams (generatorsFor calm queriesOf_twoQueries)
           (schedule calm) (clock calm)))
  ∧ Client.initialJobs !! 1
    = Some {| Client.id := 1;
              Client.query := "Why did humans evolve to die? Concise answer";
              Client.content := EmptyString; Client.status := Client.idle;
              Client.searchCount := 0 |}
  ∧ ∃ job',
      Client.jobs
        (Client.startAllResearch Client.initialJobs
           (map joined
              [enqueued (controller
                 (mergeStreams (generatorsFor calm queriesOf_twoQueries)
                    (schedule calm) (clock calm)))])) !! 1 = Some job'
      ∧ Client.id job' = 1
      ∧ Client.query job' = "Why did humans evolve to die? Concise answer"
      ∧ Client.content job' = textOf (streamOf calm queriesOf_twoQueries 1)
      ∧ Client.searchCount job' = searchesIn (streamOf calm queriesOf_twoQueries 1).
Proof.
  assert (NeverThrows (generatorsFor calm queriesOf_twoQueries)) as Hnt.
  { vm_compute. repeat constructor. }
  assert (concat [enqueued (controller
              (mergeStreams (generatorsFor calm queriesOf_twoQueries)
                 (schedule calm) (clock calm)))]
    = enqueued (controller
        (mergeStreams (generatorsFor calm queriesOf_twoQueries)
           (schedule calm) (clock calm)))) as Hcat.
  { vm_compute. reflexivity. }
  split; [exact Hnt|]. split; [exact Hcat|]. split; [reflexivity|].
  exact (each_card_shows_the_text_of_its_stream calm queriesOf_twoQueries
           Client.initialJobs _ 1 _ Hnt Hcat eq_refl).
Defined.

(** X12: at whatever point the output of the route is cut, also when a generator
    throws and the [catch] block ends the stream, a card holds a beginning of
    the text of the stream of its own job, and has counted no more searches
    than that stream announced: it never shows text of another job, nor text
    twice. *)
Theorem a_card_never_shows_more_than_its_stream
    (w : World) (queries : list value) (js : list Client.ResearchJob)
    (n : nat) (groups : list (list string)) (i : nat) (job : Client.ResearchJob) :
  concat groups
  = enqueued (controller
      (steps n (start (generatorsFor w queries) (schedule w) (clock w)))) →
  js !! i = Some job →
  ∃ job' rest,
    Client.jobs (Client.startAllResearch js (map joined groups)) !! i = Some job'
    ∧ textOf (streamOf w queries (Client.id job)) = Client.content job' +:+ rest
    ∧ Client.searchCount job' ≤ searchesIn (streamOf w queries (Client.id job)).
Proof.
  intros Hcat Hi.
  pose proof (generatorsFor_Fresh w queries) as Hf.
  destruct (cards_of_run w queries _ js groups
              (Inv_steps _ n _ (Inv_start _ (schedule w) (clock w) Hf)) Hcat)
    as (trace & Hpre & _ & ->).
  destruct (Hpre (Client.id job)) as [rest Hs].
  destruct (generator_deltas w queries (Client.id job)) as [<- <-].
  rewrite Hs. destruct (deltasOf_app (Client.id job)
                          (project (Client.id job) trace) rest) as [-> ->].
  eexists. exists (deltasOf (Client.id job) rest). split.
  { unfold Client.startAllResearch. simpl. by rewrite !list_lookup_fmap, Hi. }
  match goal with
  | |- context [shown ?evs ?jb] => destruct (shown_grows evs jb) as [-> ->]
  end.
  simpl. rewrite append_nil_l. split; [done|lia].
Qed.

Lemma a_card_never_shows_more_than_its_stream_witness :
  concat [enqueued (controller
            (steps 2 (start (generatorsFor broken queriesOf_twoQueries)
                        (schedule broken) (clock broken))))]
  = enqueued (controller
      (steps 2 (start (generatorsFor broken queriesOf_twoQueries)
                  (schedule broken) (clock broken))))
  ∧ Client.initialJobs !! 1
    = Some {| Client.id := 1;
              Client.query := "Why did humans evolve to die? Concise answer";
              Client.content := EmptyString; Client.status := Client.idle;
              Client.searchCount := 0 |}
  ∧ ∃ job' rest,
      Client.jobs
        (Client.startAllResearch Client.initialJobs
           (map joined
              [enqueued (controller
                 (steps 2 (start (generatorsFor broken queriesOf_twoQueries)
                             (schedule broken) (clock broken))))])) !! 1 = Some job'
      ∧ textOf (streamOf broken queriesOf_twoQueries 1) = Client.content job' +:+ rest
      ∧ Client.searchCount job' ≤ searchesIn (streamOf broken queriesOf_twoQueries 1).
Proof.
  assert (concat [enqueued (controller
            (steps 2 (start (generatorsFor broken queriesOf_twoQueries)
                        (schedule broken) (clock broken))))]
  = enqueued (controller
      (steps 2 (start (generatorsFor broken queriesOf_twoQueries)
                  (schedule broken) (clock broken))))) as Hcat.
  { vm_compute. reflexivity. }
  split; [exact Hcat|]. split; [reflexivity|].
  exact (a_card_never_shows_more_than_its_stream broken queriesOf_twoQueries
           Client.initialJobs 2 _ 1 _ Hcat eq_refl).
Defined.

(** X13: when no generator throws, a job whose stream ends with
    [response.completed] has its card marked done, whatever the other jobs
    sent before, between or after its events. *)
Theorem a_completed_stream_marks_its_card_done
    (w : World) (queries : list value) (js : list Client.ResearchJob)
    (groups : list (list string)) (i : nat) (job : Client.ResearchJob)
    (q : value) (ticks : list Tick) (t : Tick) (ending : Ending) :
  NeverThrows (generatorsFor w queries) →
  concat groups
  = enqueued (controller
      (mergeStreams (generatorsFor w queries) (schedule w) (clock w))) →
  js !! i = Some job →
  queries !! Client.id job = Some q →
  create w (Client.id job) q = Streams (ticks ++ [t]) ending →
  type (event t) = "response.completed" →
  ∃ job',
    Client.jobs (Client.startAllResearch js (map joined groups)) !! i = Some job'
    ∧ Client.status job' = Client.done.
Proof.
  intros Hnt Hcat Hi Hq Hcreate Htype.
  pose proof (generatorsFor_Fresh w queries) as Hf.
  destruct (cards_of_run w queries _ js groups
              (mergeStreams_Inv _ (schedule w) (clock w) Hf) Hcat)
    as (trace & _ & Hm & ->).
  specialize (Hm (mergeStreams_Completed _ (schedule w) (clock w) Hf Hnt)).
  eexists. split.
  { unfold Client.startAllResearch. simpl. by rewrite !list_lookup_fmap, Hi. }
  simpl. rewrite (Hm (Client.id job)), generatorsFor_lookup, Hq. simpl.
  rewrite Hcreate. simpl. rewrite flat_map_app, shown_app. simpl.
  rewrite app_nil_r. unfold body. rewrite Htype. simpl.
  unfold Client.update. simpl.
  match goal with
  | |- context [shown ?evs ?jb] => rewrite (proj1 (shown_id evs jb))
  end.
  simpl. by rewrite Z.eqb_refl.
Qed.

Lemma a_completed_stream_marks_its_card_done_witness :
  NeverThrows (generatorsFor finishing queriesOf_twoQueries)
  ∧ concat [enqueued (controller
              (mergeStreams (generatorsFor finishing queriesOf_twoQueries)
                 (schedule finishing) (clock finishing)))]
    = enqueued (controller
        (mergeStreams (generatorsFor finishing queriesOf_twoQueries)
           (schedule finishing) (clock finishing)))
  ∧ Client.initialJobs !! 0
    = Some {| Client.id := 0;
              Client.query := "What did David Deutsch say about us being immortal by now?";
              Client.content := EmptyString; Client.status := Client.idle;
              Client.searchCount := 0 |}
  ∧ queriesOf_twoQueries !! 0 = Some (Str "first question")
  ∧ create finishing 0 (Str "first question")
    = Streams ([textDelta "a1" 1] ++ [responseCompleted 2]) Returns
  ∧ type (event (responseCompleted 2)) = "response.completed"
  ∧ ∃ job',
      Client.jobs
        (Client.startAllResearch Client.initialJobs
           (map joined
              [enqueued (controller
                 (mergeStreams (generatorsFor finishing queriesOf_twoQueries)
                    (schedule finishing) (clock finishing)))])) !! 0 = Some job'
      ∧ Client.status job' = Client.done.
Proof.
  assert (NeverThrows (generatorsFor finishing queriesOf_twoQueries)) as Hnt.
  { vm_compute. repeat constructor. }
  assert (concat [enqueued (controller
              (mergeStreams (generatorsFor finishing queriesOf_twoQueries)
                 (schedule finishing) (clock finishing)))]
    = enqueued (controller
        (mergeStreams (generatorsFor finishing queriesOf_twoQueries)
           (schedule finishing) (clock finishing)))) as Hcat.
  { vm_compute. reflexivity. }
  split; [exact Hnt|]. split; [exact Hcat|]. do 4 (split; [reflexivity|]).
  exact (a_completed_stream_marks_its_card_done finishing queriesOf_twoQueries
           Client.initialJobs _ 0 _ (Str "first question")
           [textDelta "a1" 1] (responseCompleted 2) Returns
           Hnt Hcat eq_refl eq_refl eq_refl eq_refl).
Defined.

(* ===================================================================== *)
(** * The earlier loop on a single generator                              *)
(* ===================================================================== *)

Lemma nextArrival_single arr a :
  served a < issued a → ∃ rest, nextArrival arr [a] = Some (0, rest).
Proof.
  intros Hlt.
  destruct (nextArrival_is_Some arr [a] 0) as [[g rest] H].
  { apply has_outstanding_lookup. by exists a. }
  pose proof (nextArrival_outstanding _ _ _ _ H) as Hg.
  apply has_outstanding_lookup in Hg as (b & Hb & _).
  destruct g as [|g]; [by exists rest|done].
Qed.

Lemma naive_steps_S n r : Naive.steps (S n) r = Naive.steps n (Naive.step r).
Proof. unfold Naive.steps. apply Nat.iter_succ_r. Qed.

Lemma naive_steps_stopped n r :
  Naive.step r = r → Naive.steps n r = r.
Proof.
  intros H. induction n as [|n IH]; [done|]. by rewrite naive_steps_S, H.
Qed.

Lemma naive_poll_step a ps c arr :
  Naive.step
    {| Naive.generators := [a]; Naive.activeGenerators := {[0]};
       Naive.promises := ps; Naive.controller := c;
       Naive.status := Naive.Polling; Naive.arrivals := arr |}
  = {| Naive.generators :=
         [{| script := script a; ending := ending a;
             issued := S (issued a); served := served a |}];
       Naive.activeGenerators := {[0]};
       Naive.promises := [{| gen := 0; ticket := issued a |}];
       Naive.controller := c;
       Naive.status := Naive.Racing; Naive.arrivals := arr |}.
Proof.
  unfold Naive.step. cbn [Naive.status Naive.activeGenerators].
  rewrite size_singleton, elements_singleton. reflexivity.
Qed.

Lemma naive_turn a ps c arr :
  served a = issued a →
  ∃ rest,
    Naive.step (Naive.step
      {| Naive.generators := [a]; Naive.activeGenerators := {[0]};
         Naive.promises := ps; Naive.controller := c;
         Naive.status := Naive.Polling; Naive.arrivals := arr |})
    = match script a, ending a with
      | e :: s, _ =>
          {| Naive.generators :=
               [{| script := s; ending := ending a;
                   issued := S (issued a); served := S (served a) |}];
             Naive.activeGenerators := {[0]};
             Naive.promises := [{| gen := 0; ticket := issued a |}];
             Naive.controller := enqueue (frame e) c;
             Naive.status := Naive.Polling; Naive.arrivals := rest |}
      | [], Returns =>
          {| Naive.generators :=
               [{| script := []; ending := Returns;
                   issued := S (issued a); served := S (served a) |}];
             Naive.activeGenerators := ∅;
             Naive.promises := [{| gen := 0; ticket := issued a |}];
             Naive.controller := c;
             Naive.status := Naive.Polling; Naive.arrivals := rest |}
      | [], Throws reason =>
          {| Naive.generators :=
               [{| script := []; ending := Returns;
                   issued := S (issued a); served := S (served a) |}];
             Naive.activeGenerators := {[0]};
             Naive.promises := [{| gen := 0; ticket := issued a |}];
             Naive.controller := close (enqueue (sse (errorData reason)) c);
             Naive.status := Naive.Caught reason; Naive.arrivals := rest |}
      end.
Proof.
  intros Hs.
  destruct (nextArrival_single arr
    {| script := script a; ending := ending a;
       issued := S (issued a); served := served a |}) as [rest Hrest].
  { simpl. lia. }
  exists rest.
  rewrite naive_poll_step.
  unfold Naive.step. cbn [Naive.status Naive.arrivals Naive.generators].
  rewrite Hrest. cbn [lookup list_lookup mbind option_bind].
  unfold settle. cbn [served issued script ending].
  rewrite Hs. destruct (Nat.ltb_spec (issued a) (S (issued a))) as [_|?]; [|lia].
  destruct (script a) as [|e s], (ending a) as [|reason];
    cbn [Naive.promises Naive.with_generators Naive.with_arrivals];
    (rewrite bool_decide_eq_true_2 by (apply list_elem_of_singleton; done));
    reflexivity.
Qed.

Lemma naive_single a ps out arr :
  served a = issued a →
  Naive.controller
    (Naive.steps (2 * length (script a) + 3)
       {| Naive.generators := [a]; Naive.activeGenerators := {[0]};
          Naive.promises := ps;
          Naive.controller := {| enqueued := out; closed := false |};
          Naive.status := Naive.Polling; Naive.arrivals := arr |})
  = {| enqueued :=
         out ++ map frame (script a)
         ++ [match ending a with
             | Returns => naiveComplete
             | Throws reason => sse (errorData reason)
             end];
       closed := true |}
  ∧ Naive.status
      (Naive.steps (2 * length (script a) + 3)
         {| Naive.generators := [a]; Naive.activeGenerators := {[0]};
            Naive.promises := ps;
            Naive.controller := {| enqueued := out; closed := false |};
            Naive.status := Naive.Polling; Naive.arrivals := arr |})
    = match ending a with
      | Returns => Naive.Completed
      | Throws reason => Naive.Caught reason
      end.
Proof.
  remember (script a) as s eqn:Hscr. revert a ps out arr Hscr.
  induction s as [|e s IH]; intros a ps out arr Hscr Hs.
  - destruct (naive_turn a ps {| enqueued := out; closed := false |} arr Hs)
      as [rest Hturn].
    rewrite <- Hscr in Hturn. simpl length. simpl Nat.add. simpl Nat.mul.
    rewrite !naive_steps_S, Hturn.
    destruct (ending a) as [|reason]; [|done].
    by unfold Naive.steps.
  - destruct (naive_turn a ps {| enqueued := out; closed := false |} arr Hs)
      as [rest Hturn].
    rewrite <- Hscr in Hturn.
    replace (2 * length (e :: s) + 3) with (S (S (2 * length s + 3)))
      by (simpl; lia).
    rewrite !naive_steps_S, Hturn. unfold enqueue. cbn [enqueued closed].
    destruct (IH {| script := s; ending := ending a;
                    issued := S (issued a); served := S (served a) |}
                [{| gen := 0; ticket := issued a |}] (out ++ [frame e]) rest)
      as [-> ->]; [done|simpl; lia|].
    simpl. by rewrite <- app_assoc.
Qed.

(** X14: with a single generator the earlier loop loses nothing: whatever the
    schedule, every event of the generator is forwarded once and in order,
    followed by [{ type: 'complete' }] if the generator returns and by the
    frame of the [catch] block if it throws, and the stream is closed. The
    loss of events needs two generators. *)
Theorem earlier_loop_with_one_generator_loses_nothing (a : AsyncGen) (arr : list nat) :
  Fresh a →
  Naive.controller (Naive.steps (2 * length (script a) + 3) (Naive.start [a] arr))
  = {| enqueued :=
         map frame (script a)
         ++ [match ending a with
             | Returns => naiveComplete
             | Throws reason => sse (errorData reason)
             end];
       closed := true |}
  ∧ Naive.status (Naive.steps (2 * length (script a) + 3) (Naive.start [a] arr))
    = match ending a with
      | Returns => Naive.Completed
      | Throws reason => Naive.Caught reason
      end.
Proof.
  intros [Hi Hs]. unfold Naive.start.
  change (list_to_set (seq 0 (length [a]))) with ({[0]} ∪ ∅ : gset nat).
  rewrite union_empty_r_L.
  apply (naive_single a [] [] arr). congruence.
Qed.

Lemma earlier_loop_with_one_generator_loses_nothing_witness :
  Fresh (runSingleDeepResearch
           (Streams [textDelta "a1" 1; textDelta "a2" 2] (Throws (Error "boom"))) 0)
  ∧ Naive.controller
      (Naive.steps
         (2 * length (script (runSingleDeepResearch
           (Streams [textDelta "a1" 1; textDelta "a2" 2] (Throws (Error "boom"))) 0)) + 3)
         (Naive.start [runSingleDeepResearch
           (Streams [textDelta "a1" 1; textDelta "a2" 2] (Throws (Error "boom"))) 0]
            [0; 0]))
    = {| enqueued :=
           map frame (script (runSingleDeepResearch
           (Streams [textDelta "a1" 1; textDelta "a2" 2] (Throws (Error "boom"))) 0))
           ++ [sse (errorData (Error "boom"))];
         closed := true |}
  ∧ Naive.status
      (Naive.steps
         (2 * length (script (runSingleDeepResearch
           (Streams [textDelta "a1" 1; textDelta "a2" 2] (Throws (Error "boom"))) 0)) + 3)
         (Naive.start [runSingleDeepResearch
           (Streams [textDelta "a1" 1; textDelta "a2" 2] (Throws (Error "boom"))) 0]
            [0; 0]))
    = Naive.Caught (Error "boom").
Proof.
  assert (Fresh (runSingleDeepResearch
           (Streams [textDelta "a1" 1; textDelta "a2" 2] (Throws (Error "boom"))) 0))
    as Hf by (split; reflexivity).
  split; [exact Hf|].
  exact (earlier_loop_with_one_generator_loses_nothing _ [0; 0] Hf).
Defined.

(* ===================================================================== *)
(** * Further properties of the request handler                           *)
(* ===================================================================== *)

(** X15: whenever [POST] answers with an event stream, the body gave at least one
    query and every query was truthy; the stream is fed by one generator per
    query, and it is closed at the end of the run. *)
Theorem a_stream_is_served_for_valid_queries_only
    (w : World) (body : value) (run : Run) :
  POST w body = EventStream run →
  ∃ queries,
    queriesOf body = Some queries
    ∧ queries ≠ []
    ∧ Forall (λ q, truthy q = true) queries
    ∧ length (generators run) = length queries
    ∧ closed (controller run) = true.
Proof.
  unfold POST. intros H.
  destruct (queriesOf body) as [queries|]; [|done].
  destruct (invalid queries) eqn:Hinv; [done|]. injection H as <-.
  exists queries. split; [done|].
  assert (¬ (queries = [] ∨ ∃ q, q ∈ queries ∧ falsy q)) as Hok.
  { intros Hbad. apply invalid_true in Hbad. congruence. }
  pose proof (generatorsFor_Fresh w queries) as Hf.
  pose proof (mergeStreams_Inv _ (schedule w) (clock w) Hf) as HI.
  split_and!.
  - intros ->. apply Hok. by left.
  - apply Forall_forall. intros q Hq.
    destruct (truthy q) eqn:Hq'; [done|]. exfalso. apply Hok. right.
    exists q. split; [done|]. by apply truthy_false.
  - rewrite (inv_length _ _ HI). unfold generatorsFor. by rewrite length_imap.
  - rewrite (inv_closed _ _ HI).
    pose proof (mergeStreams_left_loop _ (schedule w) (clock w) Hf) as Hl.
    by destruct (status (mergeStreams (generatorsFor w queries) (schedule w) (clock w))).
Qed.

Lemma a_stream_is_served_for_valid_queries_only_witness :
  POST broken twoQueries
  = EventStream (mergeStreams (generatorsFor broken queriesOf_twoQueries)
                   (schedule broken) (clock broken))
  ∧ ∃ queries,
      queriesOf twoQueries = Some queries
      ∧ queries ≠ []
      ∧ Forall (λ q, truthy q = true) queries
      ∧ length (generators (mergeStreams (generatorsFor broken queriesOf_twoQueries)
                              (schedule broken) (clock broken)))
        = length queries
      ∧ closed (controller (mergeStreams (generatorsFor broken queriesOf_twoQueries)
                              (schedule broken) (clock broken))) = true.
Proof.
  assert (POST broken twoQueries
    = EventStream (mergeStreams (generatorsFor broken queriesOf_twoQueries)
                     (schedule broken) (clock broken))) as H by reflexivity.
  split; [exact H|].
  exact (a_stream_is_served_for_valid_queries_only broken twoQueries _ H).
Defined.

(** X16: a [queries] field that is not an array is ignored: the request is then
    served as the one-element list made of [body.query], so that
    [{ query: q }] and [{ queries: [q] }] get the same answer, while
    [{ queries: 'text' }] alone is refused. *)
Theorem non_array_queries_fall_back_to_query (w : World) (body : value) :
  body ≠ Null → body ≠ Undefined →
  (∀ items, field "queries" body ≠ Array items) →
  POST w body = POST w (Object [("queries", Array [field "query" body])]).
Proof.
  intros Hn Hu Harr. unfold POST, queriesOf.
  unfold field in Harr.
  destruct (get body "queries") as [v|] eqn:Hget.
  - simpl in Harr. destruct v; try done. by destruct (Harr items).
  - by destruct body.
Qed.

Lemma non_array_queries_fall_back_to_query_witness :
  Object [("queries", Str "one question"); ("query", Str "another")] ≠ Null
  ∧ Object [("queries", Str "one question"); ("query", Str "another")] ≠ Undefined
  ∧ (∀ items,
       field "queries" (Object [("queries", Str "one question"); ("query", Str "another")])
       ≠ Array items)
  ∧ POST calm (Object [("queries", Str "one question"); ("query", Str "another")])
    = POST calm
        (Object [("queries",
                  Array [field "query"
                           (Object [("queries", Str "one question");
                                    ("query", Str "another")])])]).
Proof.
  split; [discriminate|]. split; [discriminate|].
  split; [intros items; discriminate|].
  apply (non_array_queries_fall_back_to_query calm); [discriminate..|].
  intros items; discriminate.
Defined.

(* ===================================================================== *)
(** * Starting over, and telling frames apart                             *)
(* ===================================================================== *)

(** X17: a run of [startAllResearch] begins by clearing every card, so that
    what the page shows afterwards depends on the cards it had only through
    their [id]s and queries: no text, status or count of an earlier run
    survives. *)
Theorem a_new_run_forgets_the_previous_one
    (js js' : list Client.ResearchJob) (chunks : list string) :
  map Client.id js = map Client.id js' →
  map Client.query js = map Client.query js' →
  Client.startAllResearch js chunks = Client.startAllResearch js' chunks.
Proof.
  intros Hid Hq. unfold Client.startAllResearch. do 2 f_equal.
  revert js' Hid Hq. induction js as [|job js IH]; intros [|job' js'] Hid Hq;
    try done.
  simpl in *. injection Hid as Hi Hid. injection Hq as Hq0 Hq.
  by rewrite Hi, Hq0, (IH js').
Qed.

Lemma a_new_run_forgets_the_previous_one_witness :
  map Client.id Client.initialJobs
  = map Client.id
      (Client.jobs (Client.startAllResearch Client.initialJobs
                      [frame (ContentEvent 0 "a1" 1); frame (JobDoneEvent 0 2)]))
  ∧ map Client.query Client.initialJobs
    = map Client.query
        (Client.jobs (Client.startAllResearch Client.initialJobs
                        [frame (ContentEvent 0 "a1" 1); frame (JobDoneEvent 0 2)]))
  ∧ Client.startAllResearch Client.initialJobs [frame (ContentEvent 1 "b1" 3)]
    = Client.startAllResearch
        (Client.jobs (Client.startAllResearch Client.initialJobs
                        [frame (ContentEvent 0 "a1" 1); frame (JobDoneEvent 0 2)]))
        [frame (ContentEvent 1 "b1" 3)].
Proof.
  assert (map Client.id Client.initialJobs
    = map Client.id
        (Client.jobs (Client.startAllResearch Client.initialJobs
                        [frame (ContentEvent 0 "a1" 1); frame (JobDoneEvent 0 2)])))
    as Hid by (vm_compute; reflexivity).
  assert (map Client.query Client.initialJobs
    = map Client.query
        (Client.jobs (Client.startAllResearch Client.initialJobs
                        [frame (ContentEvent 0 "a1" 1); frame (JobDoneEvent 0 2)])))
    as Hq by (vm_compute; reflexivity).
  split; [exact Hid|]. split; [exact Hq|].
  exact (a_new_run_forgets_the_previous_one _ _ _ Hid Hq).
Defined.

(** X18: the output of the route determines the events that were forwarded:
    two sequences of events that are written as the same chunks are the same
    sequence, and no event is written as the chunk of the [catch] block. *)
Theorem the_chunks_determine_the_events :
  (∀ l l' : list StreamEvent, map frame l = map frame l' → l = l')
  ∧ (∀ (e : StreamEvent) (reason : Thrown), frame e ≠ sse (errorData reason)).
Proof.
  split; [|apply frame_not_errorData].
  induction l as [|e l IH]; intros [|e' l'] H; try done.
  change (frame e :: map frame l = frame e' :: map frame l') in H.
  assert (frame e = frame e' ∧ map frame l = map frame l') as [He Hl]
    by (split; congruence).
  by rewrite (frame_inj e e' He), (IH l' Hl).
Qed.
